(** * polytool: the streaming build pipeline

    A shallow embedding of [src/build/streams.ts] (the push/pull adapter
    [WritableAsyncIterable] / [AsyncTransformStream]), of
    [src/build/build.ts] (the fork/join orchestration of the two build
    phases) and of [src/commands/build.ts] (the [build] command), followed
    by the properties of the specification that concern them.

    JavaScript is single threaded: code runs to completion between two
    suspension points ([await], [yield]).  The embedding therefore takes
    the code between two suspension points as one atomic step, and lets
    the steps of the different activities interleave in any order: the
    order in which the event loop really runs them is one of these
    orders, so what holds for every schedule holds for the real one. *)

From stdpp Require Import base option list strings gmap pretty.

Set Default Proof Using "Type".

(** ** Part I: definitions *)

Module Streams.

(** JavaScript [Error] values, identified by their message. *)
Definition Error := string.

(** [IteratorResult<V>]: [{value, done: false}] or [{done: true}]. *)
Inductive IteratorResult (V : Type) :=
  | IterValue (value : V)
  | IterDone.
Arguments IterValue {V} value.
Arguments IterDone {V}.

Section Promises.
Context {V : Type}.

(** What a promise is fulfilled with: [undefined] for a [Deferred<void>]
    and for the promise of an [async] method without result, an
    [IteratorResult] for the deferred the iterator blocks on. *)
Inductive Resolution :=
  | Undefined
  | Result (r : IteratorResult V).

Inductive PromiseState :=
  | Pending
  | Fulfilled (x : Resolution)
  | Rejected (e : Error).

(** The promises and deferreds allocated so far; a promise is named by
    its position. *)
Local Abbreviation Heap := (list PromiseState).

(** [new Deferred()], or the promise an [async] call returns. *)
Definition alloc (s : PromiseState) (h : Heap) : nat * Heap :=
  (length h, h ++ [s]).

(** [deferred.resolve(x)]: settles a pending promise, and does nothing to
    a promise that is settled already. *)
Definition resolve (d : nat) (x : Resolution) (h : Heap) : Heap :=
  match h !! d with
  | Some Pending => <[d := Fulfilled x]> h
  | _ => h
  end.

(** *** class WritableAsyncIterable *)

Record WritableAsyncIterable := MkIterable {
  blockedOn : option nat;
  backlog : list (IteratorResult V * nat);
  _closed : bool;
}.

Definition new_iterable : WritableAsyncIterable :=
  {| blockedOn := None; backlog := []; _closed := false |}.

(** [private async _write(value)].  The call returns a promise: settled
    at once on the first branch; on the second branch the body ends in
    [await deferred.promise], so its promise settles when the deferred
    does, and the model names both by the deferred. *)
Definition _write (value : IteratorResult V) (h : Heap)
    (w : WritableAsyncIterable) : nat * Heap * WritableAsyncIterable :=
  match blockedOn w with
  | Some d =>
      let h1 := resolve d (Result value) h in
      let '(p, h2) := alloc (Fulfilled Undefined) h1 in
      (p, h2, {| blockedOn := None; backlog := backlog w;
                 _closed := _closed w |})
  | None =>
      let '(deferred, h1) := alloc Pending h in
      (deferred, h1,
       {| blockedOn := None; backlog := backlog w ++ [(value, deferred)];
          _closed := _closed w |})
  end.

Definition closed_message : Error := "Wrote to closed writable iterable".

(** [async write(value)]: the promise of the inner [_write] call is
    neither awaited nor returned; the promise of [write] itself is
    settled when the body has run. *)
Definition write (value : V) (h : Heap) (w : WritableAsyncIterable)
    : nat * Heap * WritableAsyncIterable :=
  if _closed w then
    let '(p, h1) := alloc (Rejected closed_message) h in (p, h1, w)
  else
    let '(_, h1, w1) := _write (IterValue value) h w in
    let '(p, h2) := alloc (Fulfilled Undefined) h1 in
    (p, h2, w1).

(** [async close()]: returns the promise of the inner [_write]. *)
Definition close (h : Heap) (w : WritableAsyncIterable)
    : nat * Heap * WritableAsyncIterable :=
  _write IterDone h
    {| blockedOn := blockedOn w; backlog := backlog w; _closed := true |}.

(** One turn of the loop of [async * [Symbol.asyncIterator]()], up to
    its [await]: either the oldest backlog entry is taken and its
    deferred resolved, or the iterator blocks on a fresh deferred. *)
Inductive Pulled :=
  | Took (value : IteratorResult V)
  | Blocked (d : nat).

Definition shift (h : Heap) (w : WritableAsyncIterable)
    : Pulled * Heap * WritableAsyncIterable :=
  match backlog w with
  | (value, deferred) :: rest =>
      (Took value, resolve deferred Undefined h,
       {| blockedOn := blockedOn w; backlog := rest;
          _closed := _closed w |})
  | [] =>
      let '(d, h1) := alloc Pending h in
      (Blocked d, h1,
       {| blockedOn := Some d; backlog := []; _closed := _closed w |})
  end.
End Promises.

Arguments Resolution : clear implicits.
Arguments PromiseState : clear implicits.
Arguments WritableAsyncIterable : clear implicits.
Arguments Pulled : clear implicits.

Abbreviation Heap V := (list (PromiseState V)).


(** *** The stage author's transform

    [_transformIter(inputs)] is an async generator.  Between two
    suspension points it computes; at a suspension point it asks for the
    next input ([await] on [inputs]' iterator, as [for await] does), hands
    a value to its caller ([yield]), returns, or throws.  A generator is
    therefore given by its suspended states and by what resuming one of
    them comes to. *)
Inductive Action (In Out G : Type) :=
  | Pull (k : IteratorResult In → G)
  | Yield (o : Out) (g : G)
  | Return
  | Throw (e : Error).
Arguments Pull {In Out G} k.
Arguments Yield {In Out G} o g.
Arguments Return {In Out G}.
Arguments Throw {In Out G} e.

(** The abstract method of [AsyncTransformStream]. *)
Class TransformIter (In Out : Type) := {
  Generator : Type;
  _transformIter : Generator;
  resume : Generator → Action In Out Generator;
}.

(** [async *_transformIter(inputs) { for await (const x of inputs) yield x; }] *)
Inductive Passing (V : Type) :=
  | Waiting
  | Holding (v : V)
  | Over.
Arguments Waiting {V}.
Arguments Holding {V} v.
Arguments Over {V}.

Definition identity_resume {V} (g : Passing V) : Action V V (Passing V) :=
  match g with
  | Waiting =>
      Pull (λ r, match r with IterValue v => Holding v | IterDone => Over end)
  | Holding v => Yield v Waiting
  | Over => Return
  end.

#[export] Instance identity (V : Type) : TransformIter V V :=
  {| Generator := Passing V; _transformIter := Waiting;
     resume := identity_resume |}.

(** *** class AsyncTransformStream *)

Section Adapter.
Context {In Out : Type} `{T : TransformIter In Out}.

(** Where the activity started by [_initializeOnce] stands: the loop
    [for await (const value of this._transformIter(this._inputs))
    this.push(value)] and the reaction registered on
    [transformDonePromise].
    - [NotStarted]: [_initializeOnce] has not run;
    - [Running g]: the generator is about to go on from [g];
    - [AwaitingInput d g]: the generator, at [g], has asked for the next
      input and the input iterator awaits its deferred [d] ([blockedOn]);
    - [Yielded o g]: the generator has yielded [o], which the loop has not
      pushed yet;
    - [Returned], [Threw e]: the generator has returned or thrown, and
      [transformDonePromise] is settled;
    - [Finished]: the reaction has resolved [_writingFinished];
    - [Failed]: the reaction has emitted ['error']. *)
Inductive Driver :=
  | NotStarted
  | Running (g : Generator)
  | AwaitingInput (d : nat) (g : Generator)
  | Yielded (o : Out) (g : Generator)
  | Returned
  | Threw (e : Error)
  | Finished
  | Failed.

(** The suspended continuations of [_transform] and [_flush]. *)
Inductive Task :=
  | TransformCallback (p : nat)
  | FlushAwaitClose (p : nat)
  | FlushAwaitWriting.

(** The object's fields, the activities suspended on it, and what it has
    done to the outside: [this.push], [this.emit('error', _)] and the
    callbacks it was handed.  [inputs_returned] tells whether the generator
    behind the iterator of [_inputs] has returned, that is, has handed the
    done marker on.  [pulled] and [yielded] are history variables: the
    values the input iterator has produced and the values the transform
    has yielded. *)
Record AsyncTransformStream := MkStream {
  heap : Heap In;
  _inputs : WritableAsyncIterable In;
  inputs_returned : bool;
  _initialized : bool;
  driver : Driver;
  tasks : list Task;
  pushed : list Out;
  errors : list Error;
  transform_callbacks : list (option Error);
  flush_callbacks : list (option Error);
  pulled : list In;
  yielded : list Out;
}.

(** [private _writingFinished = new Deferred<void>()] is the first
    promise of a new stream. *)
Definition _writingFinished : nat := 0.

Definition new_stream : AsyncTransformStream :=
  {| heap := [Pending]; _inputs := new_iterable; inputs_returned := false;
     _initialized := false; driver := NotStarted; tasks := [];
     pushed := []; errors := []; transform_callbacks := [];
     flush_callbacks := []; pulled := []; yielded := [] |}.

Definition set_io (h : Heap In) (w : WritableAsyncIterable In)
    (st : AsyncTransformStream) : AsyncTransformStream :=
  let 'MkStream _ _ r i d t ps es tc fc pl ys := st in
  MkStream h w r i d t ps es tc fc pl ys.
Definition set_heap (h : Heap In) (st : AsyncTransformStream) :=
  let 'MkStream _ w r i d t ps es tc fc pl ys := st in
  MkStream h w r i d t ps es tc fc pl ys.
Definition set_returned (st : AsyncTransformStream) :=
  let 'MkStream h w _ i d t ps es tc fc pl ys := st in
  MkStream h w true i d t ps es tc fc pl ys.
Definition set_initialized (st : AsyncTransformStream) :=
  let 'MkStream h w r _ d t ps es tc fc pl ys := st in
  MkStream h w r true d t ps es tc fc pl ys.
Definition set_driver (d : Driver) (st : AsyncTransformStream) :=
  let 'MkStream h w r i _ t ps es tc fc pl ys := st in
  MkStream h w r i d t ps es tc fc pl ys.
Definition set_tasks (t : list Task) (st : AsyncTransformStream) :=
  let 'MkStream h w r i d _ ps es tc fc pl ys := st in
  MkStream h w r i d t ps es tc fc pl ys.
Definition log_push (o : Out) (st : AsyncTransformStream) :=
  let 'MkStream h w r i d t ps es tc fc pl ys := st in
  MkStream h w r i d t (ps ++ [o]) es tc fc pl ys.
Definition log_error (e : Error) (st : AsyncTransformStream) :=
  let 'MkStream h w r i d t ps es tc fc pl ys := st in
  MkStream h w r i d t ps (es ++ [e]) tc fc pl ys.
Definition log_transform_callback (e : option Error)
    (st : AsyncTransformStream) :=
  let 'MkStream h w r i d t ps es tc fc pl ys := st in
  MkStream h w r i d t ps es (tc ++ [e]) fc pl ys.
Definition log_flush_callback (e : option Error)
    (st : AsyncTransformStream) :=
  let 'MkStream h w r i d t ps es tc fc pl ys := st in
  MkStream h w r i d t ps es tc (fc ++ [e]) pl ys.
Definition log_pull (v : In) (st : AsyncTransformStream) :=
  let 'MkStream h w r i d t ps es tc fc pl ys := st in
  MkStream h w r i d t ps es tc fc (pl ++ [v]) ys.
Definition log_yield (o : Out) (st : AsyncTransformStream) :=
  let 'MkStream h w r i d t ps es tc fc pl ys := st in
  MkStream h w r i d t ps es tc fc pl (ys ++ [o]).

(** The input iterator hands [value] to the transform, which is
    suspended in a pull with continuation [k]: on [done] the iterator
    returns, otherwise it yields the value. *)
Definition deliver (value : IteratorResult In)
    (k : IteratorResult In → Generator) (st : AsyncTransformStream) :=
  match value with
  | IterDone => set_driver (Running (k IterDone)) (set_returned st)
  | IterValue v => set_driver (Running (k (IterValue v))) (log_pull v st)
  end.

(** One step of the activity started by [_initializeOnce], from one
    suspension point to the next; [None] when it cannot move. *)
Definition advance (st : AsyncTransformStream)
    : option AsyncTransformStream :=
  match driver st with
  | Running g =>
      match resume g with
      | Pull k =>
          if inputs_returned st then
            Some (set_driver (Running (k IterDone)) st)
          else
            let '(r, h, w) := shift (heap st) (_inputs st) in
            match r with
            | Took value => Some (deliver value k (set_io h w st))
            | Blocked d =>
                Some (set_driver (AwaitingInput d g) (set_io h w st))
            end
      | Yield o g' => Some (set_driver (Yielded o g') (log_yield o st))
      | Return => Some (set_driver Returned st)
      | Throw e => Some (set_driver (Threw e) st)
      end
  | AwaitingInput d g =>
      match heap st !! d, resume g with
      | Some (Fulfilled (Result value)), Pull k => Some (deliver value k st)
      | _, _ => None
      end
  | Yielded o g => Some (set_driver (Running g) (log_push o st))
  | Returned =>
      Some (set_driver Finished
              (set_heap (resolve _writingFinished Undefined (heap st)) st))
  | Threw e => Some (set_driver Failed (log_error e st))
  | NotStarted | Finished | Failed => None
  end.

(** [private _initializeOnce()]: the generator and the loop over it run
    at once, up to their first suspension point. *)
Definition _initializeOnce (st : AsyncTransformStream) :=
  if _initialized st then st
  else
    let st1 := set_driver (Running _transformIter) (set_initialized st) in
    default st1 (advance st1).

(** [protected _transform(input, _encoding, callback)] *)
Definition _transform (input : In) (st : AsyncTransformStream) :=
  let st1 := _initializeOnce st in
  let '(p, h, w) := write input (heap st1) (_inputs st1) in
  set_tasks (tasks st1 ++ [TransformCallback p]) (set_io h w st1).

(** [protected async _flush(callback)], up to its first [await]. *)
Definition _flush (st : AsyncTransformStream) :=
  let '(p, h, w) := close (heap st) (_inputs st) in
  set_tasks (tasks st ++ [FlushAwaitClose p]) (set_io h w st).

(** A suspended continuation of [_transform] or [_flush] goes on once the
    promise it waits for is settled. *)
Definition settle (i : nat) (st : AsyncTransformStream)
    : option AsyncTransformStream :=
  match tasks st !! i with
  | Some (TransformCallback p) =>
      match heap st !! p with
      | Some (Fulfilled _) =>
          Some (log_transform_callback None
                  (set_tasks (delete i (tasks st)) st))
      | Some (Rejected e) =>
          Some (log_transform_callback (Some e)
                  (set_tasks (delete i (tasks st)) st))
      | _ => None
      end
  | Some (FlushAwaitClose p) =>
      match heap st !! p with
      | Some (Fulfilled _) =>
          Some (set_tasks (<[i := FlushAwaitWriting]> (tasks st)) st)
      | Some (Rejected e) =>
          Some (log_flush_callback (Some e)
                  (set_tasks (delete i (tasks st)) st))
      | _ => None
      end
  | Some FlushAwaitWriting =>
      match heap st !! _writingFinished with
      | Some (Fulfilled _) =>
          Some (log_flush_callback None
                  (set_tasks (delete i (tasks st)) st))
      | Some (Rejected e) =>
          Some (log_flush_callback (Some e)
                  (set_tasks (delete i (tasks st)) st))
      | _ => None
      end
  | None => None
  end.

(** What can happen to a stream: the stream machinery calls
    [_transform] or [_flush], the transform's activity moves on, or a
    suspended continuation does. *)
Inductive Event :=
  | Transform (input : In)
  | Flush
  | Advance
  | Settle (i : nat).

Definition step (ev : Event) (st : AsyncTransformStream) :=
  match ev with
  | Transform input => _transform input st
  | Flush => _flush st
  | Advance => default st (advance st)
  | Settle i => default st (settle i st)
  end.

Fixpoint run (evs : list Event) (st : AsyncTransformStream) :=
  match evs with
  | [] => st
  | ev :: rest => run rest (step ev st)
  end.

(** The calls of the stream machinery in a schedule, in order. *)
Fixpoint calls (evs : list Event) : list Event :=
  match evs with
  | [] => []
  | Transform input :: rest => Transform input :: calls rest
  | Flush :: rest => Flush :: calls rest
  | _ :: rest => calls rest
  end.

Fixpoint flushes (evs : list Event) : nat :=
  match evs with
  | [] => 0
  | Flush :: rest => S (flushes rest)
  | _ :: rest => flushes rest
  end.

Fixpoint has_transform (evs : list Event) : bool :=
  match evs with
  | [] => false
  | Transform _ :: _ => true
  | _ :: rest => has_transform rest
  end.
End Adapter.

Arguments Driver {In Out} T.
Arguments AsyncTransformStream {In Out} T.
Arguments Event : clear implicits.

(** *** Invariants of the adapter *)

Section Invariants.
Context {In Out : Type} `{T : TransformIter In Out}.

Implicit Types (st : AsyncTransformStream T).

(** A stream that no input has reached: the transform is not started,
    nothing waits on the input side, no promise is settled. *)
Record idle st : Prop := {
  idle_driver : driver st = NotStarted;
  idle_blocked : blockedOn (_inputs st) = None;
  idle_heap : Forall (λ s, s = Pending) (heap st);
  idle_tasks : Forall (λ t, ∃ p, t = FlushAwaitClose p) (tasks st);
  idle_backlog : Forall (λ e, e.1 = IterDone) (backlog (_inputs st));
  idle_flush : flush_callbacks st = [];
  idle_pushed : pushed st = [];
}.

(** The done marker has reached the input iterator: the iterator has
    returned, or it is about to wake up with the marker. *)
Definition done_delivered st : Prop :=
  inputs_returned st = true ∨
  ∃ d g, driver st = AwaitingInput d g ∧
    heap st !! d = Some (Fulfilled (Result IterDone)).

Definition awaiting_push (d : Driver T) : list Out :=
  match d with
  | Yielded o _ => [o]
  | _ => []
  end.

(** A done marker has been sent into the input side: the iterator has
    returned, or is about to wake up with the marker, or the marker is in
    the backlog. *)
Definition done_sent st : Prop :=
  inputs_returned st = true ∨
  (∃ d g, driver st = AwaitingInput d g ∧
     heap st !! d = Some (Fulfilled (Result IterDone))) ∨
  ∃ d, (IterDone, d) ∈ backlog (_inputs st).

Definition closed_if_sent st : Prop :=
  done_sent st → _closed (_inputs st) = true.

(** The stream is in a state its own steps can have led to: the promises
    the activities wait for, the backlog, the blocked consumer and the
    suspended continuations of [_flush] fit together. *)
Record consistent st : Prop := {
  c_heap :
    heap st !! _writingFinished = Some Pending ∨
    (driver st = Finished ∧
     ∃ x, heap st !! _writingFinished = Some (Fulfilled x));
  c_init : _initialized st = false → driver st = NotStarted;
  c_await : ∀ d g, driver st = AwaitingInput d g →
    (blockedOn (_inputs st) = Some d ∧ heap st !! d = Some Pending) ∨
    (blockedOn (_inputs st) = None ∧
     ∃ r, heap st !! d = Some (Fulfilled (Result r)));
  c_blocked : ∀ d, blockedOn (_inputs st) = Some d →
    (∃ g, driver st = AwaitingInput d g) ∧ backlog (_inputs st) = [] ∧
    0 < d < length (heap st);
  c_backlog : ∀ v d, (v, d) ∈ backlog (_inputs st) →
    0 < d < length (heap st) ∧ (FlushAwaitClose d ∈ tasks st → v = IterDone);
  c_close : ∀ p, FlushAwaitClose p ∈ tasks st →
    0 < p < length (heap st) ∧ blockedOn (_inputs st) ≠ Some p ∧
    _closed (_inputs st) = true ∧
    (heap st !! p = Some Pending ∨
     (∃ x, heap st !! p = Some (Fulfilled x)) ∧ done_delivered st);
  c_writing : FlushAwaitWriting ∈ tasks st →
    done_delivered st ∧ _closed (_inputs st) = true;
  c_flushed : flush_callbacks st ≠ [] →
    Forall (λ e, e = None) (flush_callbacks st) ∧
    _closed (_inputs st) = true ∧ inputs_returned st = true ∧
    driver st = Finished;
  c_yield : yielded st = pushed st ++ awaiting_push (driver st);
}.
End Invariants.

(** *** The identity transform in the adapter *)

Section IdentityInvariants.
Context {V : Type}.

Implicit Types (st : AsyncTransformStream (identity V)).
Implicit Types (evs : list (Event V)) (sent : list (IteratorResult V)).

(** The item the blocked iterator has been handed and has not woken up
    with yet. *)
Definition inflight st : list (IteratorResult V) :=
  match driver st with
  | AwaitingInput d _ =>
      match heap st !! d with
      | Some (Fulfilled (Result r)) => [r]
      | _ => []
      end
  | _ => []
  end.

(** The item the identity transform has pulled and the adapter has not
    pushed yet. *)
Definition holding (d : Driver (identity V)) : list V :=
  match d with
  | Running g => match g : Passing V with Holding v => [v] | _ => [] end
  | Yielded v _ => [v]
  | _ => []
  end.

(** What the input iterator has produced. *)
Definition consumed st : list (IteratorResult V) :=
  (IterValue <$> pulled st) ++ (if inputs_returned st then [IterDone] else []).

(** What the calls of a schedule send into the input side: the items
    written before the first [_flush], and a done marker for each
    [_flush]. *)
Fixpoint offered (closed : bool) evs : list (IteratorResult V) :=
  match evs with
  | [] => []
  | Transform v :: rest =>
      (if closed then [] else [IterValue v]) ++ offered closed rest
  | Flush :: rest => IterDone :: offered true rest
  | _ :: rest => offered closed rest
  end.

(** Where the identity transform can stand, and whether it has seen the
    done marker there. *)
Definition shape st : Prop :=
  match driver st with
  | NotStarted => inputs_returned st = false ∧ _initialized st = false
  | Running g =>
      match g : Passing V with
      | Over => inputs_returned st = true
      | _ => inputs_returned st = false
      end
  | AwaitingInput _ g | Yielded _ g =>
      (g : Passing V) = Waiting ∧ inputs_returned st = false
  | Returned | Finished => inputs_returned st = true
  | Threw _ | Failed => False
  end.

(** Everything sent into the input side is, in order, what the iterator
    has produced, then what it has been handed, then the backlog; and what
    it has produced is what has been pushed, then what the transform
    holds. *)
Record flow sent st : Prop := {
  f_sent : consumed st ++ inflight st ++ (backlog (_inputs st)).*1 = sent;
  f_held : pulled st = pushed st ++ holding (driver st);
  f_shape : shape st;
}.

(** How many steps the identity transform and its driver still have to
    make to take everything that has been sent and finish. *)
Definition remaining st : nat :=
  let queued := length (inflight st ++ (backlog (_inputs st)).*1) in
  match driver st with
  | NotStarted | Finished | Threw _ | Failed => 0
  | Returned => 1
  | Running g =>
      match g : Passing V with
      | Waiting => 3 * queued
      | Holding _ => 3 * queued + 2
      | Over => 2
      end
  | AwaitingInput _ _ => 3 * queued
  | Yielded _ _ => 3 * queued + 1
  end.

End IdentityInvariants.

End Streams.


Module Build.

(** *** JavaScript values and promises

    The option bags of the build are plain JavaScript objects read by
    property name, so they are modelled as finite maps from property names
    to values. *)
#[warnings="-register-all"]
Inductive value :=
  | VUndefined
  | VBool (b : bool)
  | VString (s : string)
  | VArray (items : list value)
  | VObject (fields : gmap string value)
  | VFunction (name : string).

Inductive Exception :=
  | TypeError (message : string)
  | Failure (message : string).

Definition truthy (v : value) : bool :=
  match v with
  | VUndefined => false
  | VBool b => b
  | VString s => negb (String.eqb s EmptyString)
  | VArray _ | VObject _ | VFunction _ => true
  end.

(** [o.k]: reading a property of [undefined] throws a [TypeError]; a
    property that is absent reads as [undefined]. *)
Definition get (o : value) (k : string) : Exception + value :=
  match o with
  | VUndefined =>
      inl (TypeError ("Cannot read property '" +:+ k +:+ "' of undefined"))
  | VObject fields => inr (default VUndefined (fields !! k))
  | _ => inr VUndefined
  end.

(** [o.k] where [o] is known not to be [undefined]. *)
Definition prop (o : value) (k : string) : value :=
  match o with
  | VObject fields => default VUndefined (fields !! k)
  | _ => VUndefined
  end.

(** [a || b] *)
Definition or_else (a b : value) : value := if truthy a then a else b.

(** The characters of a string, each a string of its own. *)
Fixpoint characters (s : string) : list value :=
  match s with
  | EmptyString => []
  | String c rest => VString (String c EmptyString) :: characters rest
  end.

(** The elements of an array or the characters of a string as properties:
    the name of each is its index, in decimal digits. *)
Definition indexed (items : list value) : gmap string value :=
  list_to_map (imap (λ i item, (pretty i, item)) items).

(** The own enumerable properties of a value: the properties of an object,
    the elements of an array, the characters of a string; [undefined], a
    boolean and a plain function have none. *)
Definition own_properties (v : value) : gmap string value :=
  match v with
  | VObject fields => fields
  | VArray items => indexed items
  | VString s => indexed (characters s)
  | VUndefined | VBool _ | VFunction _ => ∅
  end.

(** [Object.assign(target, source)] for a fresh object literal [target]:
    the own enumerable properties of [source] are copied over those of
    [target]. *)
Definition Object_assign (target : gmap string value) (source : value)
    : value :=
  VObject (own_properties source ∪ target).

(** A promise is described by what becomes of it: it settles at some time,
    fulfilled with a value or rejected with a reason, or it never settles.
    Times are the turns of the event loop, counted from the call of
    [build]. *)
Inductive Outcome :=
  | Resolves (v : value)
  | Rejects (reason : Exception).

Definition Promise := option (nat * Outcome).

Definition settled_at (p : Promise) : option nat := fst <$> p.

Definition fulfilled (p : Promise) : Prop := ∃ t v, p = Some (t, Resolves v).
Definition rejected (p : Promise) : Prop := ∃ t e, p = Some (t, Rejects e).

Definition rejection (p : Promise) : option (nat * Exception) :=
  match p with
  | Some (t, Rejects e) => Some (t, e)
  | _ => None
  end.

Definition fulfilment (p : Promise) : option (nat * value) :=
  match p with
  | Some (t, Resolves v) => Some (t, v)
  | _ => None
  end.

(** The earliest of a list of rejections, the one of the lowest index among
    those of one turn. *)
Fixpoint earliest (rs : list (nat * Exception)) : option (nat * Exception) :=
  match rs with
  | [] => None
  | (t, e) :: rest =>
      match earliest rest with
      | Some (t', e') => if decide (t' < t) then Some (t', e') else Some (t, e)
      | None => Some (t, e)
      end
  end.

(** [Promise.all(ps)] (ECMAScript): rejected as soon as one of [ps] is
    rejected, with that reason; fulfilled with the array of the values once
    every one of [ps] is fulfilled; pending otherwise. *)
Definition Promise_all (ps : list Promise) : Promise :=
  match earliest (omap rejection ps) with
  | Some (t, e) => Some (t, Rejects e)
  | None =>
      match mapM fulfilment ps with
      | Some tvs => Some (max_list (tvs.*1), Resolves (VArray (tvs.*2)))
      | None => None
      end
  end.

(** [p.then(f)], where [f] is called with the value and returns a promise;
    [f] is also given the turn in which it is called. *)
Definition then_ (p : Promise) (f : value → nat → Promise) : Promise :=
  match p with
  | Some (t, Resolves v) => f v t
  | _ => p
  end.

(** [results[i]] *)
Definition index (results : value) (i : nat) : value :=
  match results with
  | VArray items => default VUndefined (items !! i)
  | _ => VUndefined
  end.

(** *** Streams and [waitFor] *)

Inductive StreamEvent :=
  | data
  | end_
  | error (e : Exception).

(** What a stream emits, in order, each event with its turn. *)
Definition Emission := list (nat * StreamEvent).

(** [waitFor(stream)]: the promise is settled by the first ['end'] or
    ['error'] event; the ['end'] listener is [resolve] itself, which is
    called without argument. *)
Fixpoint waitFor (stream : Emission) : Promise :=
  match stream with
  | [] => None
  | (t, end_) :: _ => Some (t, Resolves VUndefined)
  | (t, error e) :: _ => Some (t, Rejects e)
  | (_, data) :: rest => waitFor rest
  end.

(** What a stream did, told from its events alone: it has ended in turn
    [t] when its ['end'] of turn [t] comes before any ['error'] and any
    other ['end']; it has failed in turn [t] with [e] when its ['error']
    of turn [t] comes before any ['end'] and any other ['error']. *)
Definition only_data (events : Emission) : Prop :=
  Forall (λ x, x.2 = data) events.

Definition ends_at (stream : Emission) (t : nat) : Prop :=
  ∃ before after, stream = before ++ (t, end_) :: after ∧ only_data before.

Definition fails_at (stream : Emission) (t : nat) (e : Exception) : Prop :=
  ∃ before after, stream = before ++ (t, error e) :: after ∧ only_data before.

(** *** The pipelines of [build] *)

Record ProjectConfig := {
  root : string;
  entrypoint : string;
  shell : string;
  fragments : list string;
  sourceGlobs : list string;
  includeDependencies : list string;
}.

(** The stream nodes [build] creates.  A pipeline is the list of the nodes
    piped into one another, the source first. *)
#[warnings="-register-all"]
Inductive Stage :=
  | sources
  | dependencies
  | splitHtml
  | rejoinHtml
  | analyzer
  | bundler
  | BabelTransform
  | JSOptimizeStream (options : value)
  | CSSOptimizeStream (options : value)
  | HTMLOptimizeStream (options : value)
  | PrefetchTransform (project : ProjectConfig)
  | dest (folder : string)
  | gulpif_match (pattern : string) (stage : Stage)
  | gulpif (condition : value) (stage : Stage)
  | mergeStream (a b : list Stage)
  | forkStream (source : list Stage).

(** [gulpif(condition, stage)] with a condition that is no pattern: the
    files go through [stage] when the condition is truthy and past it
    otherwise.  [active] lists the nodes of a pipeline the files go
    through. *)
Definition active_stage (s : Stage) : list Stage :=
  match s with
  | gulpif condition stage => if truthy condition then [stage] else []
  | _ => [s]
  end.

Definition active (pipeline : list Stage) : list Stage :=
  pipeline ≫= active_stage.

(** *** External collaborators *)

Record ServiceWorkerOptions := {
  buildRoot : string;
  project : ProjectConfig;
  swConfig : value;
  bundled : bool;
}.

(** The collaborators [build] calls: [path.resolve], [parsePreCacheConfig],
    the streams of the two phases, seen through what their last node emits,
    and [addServiceWorker], which settles [fst] turns after it is called. *)
Record Collaborators := {
  path_resolve : string → value → string;
  parsePreCacheConfig : string → Promise;
  emission : list Stage → Emission;
  addServiceWorker : ServiceWorkerOptions → option (nat * Outcome);
}.

Inductive Call :=
  | CallParsePreCacheConfig (path : string)
  | CallAddServiceWorker (turn : nat) (options : ServiceWorkerOptions).

(** The promise [addServiceWorker(options)] returns when called in turn
    [t]. *)
Definition addServiceWorker_at (E : Collaborators)
    (options : ServiceWorkerOptions) (t : nat) : Promise :=
  match addServiceWorker E options with
  | Some (dt, r) => Some (t + dt, r)
  | None => None
  end.

(** *** Calls of collaborators

    A computation that calls collaborators gives its result together with
    the calls it has made, in order. *)
Definition Logged (A : Type) : Type := A * list Call.

#[export] Instance Logged_ret : MRet Logged := λ A a, (a, []).

#[export] Instance Logged_bind : MBind Logged :=
  λ A B f m, ((f m.1).1, m.2 ++ (f m.1).2).

(** [parsePreCacheConfig(path)] *)
Definition call_parsePreCacheConfig (E : Collaborators) (path : string)
    : Logged Promise :=
  (parsePreCacheConfig E path, [CallParsePreCacheConfig path]).

(** [addServiceWorker(options)], called in turn [t]. *)
Definition call_addServiceWorker (E : Collaborators)
    (options : ServiceWorkerOptions) (t : nat) : Logged Promise :=
  (addServiceWorker_at E options t, [CallAddServiceWorker t options]).

(** [p.then(f)] where [f] calls collaborators: it does so when [p] is
    fulfilled, and not otherwise. *)
Definition then_call (p : Promise) (f : value → nat → Logged Promise)
    : Logged Promise :=
  match p with
  | Some (t, Resolves v) => f v t
  | _ => mret p
  end.

(** *** [build] *)

Record BuildRun := {
  sourcesStream : list Stage;
  depsStream : list Stage;
  buildStream : list Stage;
  unbundledPhase : list Stage;
  bundledPhase : list Stage;
  swPrecacheConfig : string;
  loadSWConfig : Promise;
  unbundledPostProcessing : Promise;
  bundledPostProcessing : Promise;
  completion : Promise;
  external_calls : list Call;
}.

(** A run of [build] that has made the calls [m.2]. *)
Definition with_calls (m : Logged (list Call → BuildRun)) : BuildRun :=
  m.1 m.2.

(** [Promise.all([loadSWConfig, waitFor(phase)]).then((results) =>
    addServiceWorker({buildRoot, project, swConfig: results[0], bundled}))],
    with the call of [addServiceWorker] it makes, if any. *)
Definition postProcessing (E : Collaborators) (load : Promise)
    (phase : list Stage) (folder : string) (polymerProject : ProjectConfig)
    (is_bundled : bool) : Logged Promise :=
  then_call (Promise_all [load; waitFor (emission E phase)])
    (λ results t,
       call_addServiceWorker E
         {| buildRoot := folder; project := polymerProject;
            swConfig := index results 0; bundled := is_bundled |} t).

(** The part of a source or dependency pipeline after [splitHtml]. *)
Definition optimize (babel : bool) (optimizeOptions : value) : list Stage :=
  (if babel then [gulpif_match "\.js$" BabelTransform] else []) ++
  [gulpif_match "\.js$" (JSOptimizeStream (prop optimizeOptions "js"));
   gulpif_match "\.css$" (CSSOptimizeStream (prop optimizeOptions "css"));
   gulpif_match "\.html$" (HTMLOptimizeStream (prop optimizeOptions "html"));
   rejoinHtml].

(** [export async function build(options, config)].  An exception thrown
    by the body rejects the promise of the call: [inl]. *)
Definition build (E : Collaborators) (options : value)
    (config : ProjectConfig) : Exception + BuildRun :=
  match get options "js" with
  | inl e => inl e
  | inr js =>
  match get js "compile" with
  | inl e => inl e
  | inr compile =>
    let babel := truthy compile in
    let polymerProject :=
      {| root := root config; entrypoint := entrypoint config;
         shell := shell config; fragments := fragments config;
         sourceGlobs := sourceGlobs config;
         includeDependencies := includeDependencies config |} in
    let optimizeOptions :=
      VObject (list_to_map
        [("html", Object_assign {["removeComments" := VBool true]}
                    (prop options "html"));
         ("css", Object_assign {["stripWhitespace" := VBool true]}
                   (prop options "css"));
         ("js", Object_assign {["minify" := VBool true]}
                  (prop options "js"))]) in
    let sourcesStream := [sources; splitHtml] ++ optimize babel optimizeOptions in
    let depsStream :=
      [dependencies; splitHtml] ++ optimize babel optimizeOptions in
    let buildStream := [mergeStream sourcesStream depsStream; analyzer] in
    let unbundledPhase :=
      [forkStream buildStream;
       gulpif (prop options "insertDependencyLinks")
         (PrefetchTransform polymerProject);
       dest "build/unbundled"] in
    let bundledPhase :=
      [forkStream buildStream; bundler; dest "build/bundled"] in
    let swPrecacheConfig :=
      path_resolve E (root polymerProject)
        (or_else (prop options "swPrecacheConfig")
           (VString "sw-precache-config.js")) in
    inr (with_calls (
      loadSWConfig ← call_parsePreCacheConfig E swPrecacheConfig;
      unbundledPostProcessing ←
        postProcessing E loadSWConfig unbundledPhase "build/unbundled"
          polymerProject false;
      bundledPostProcessing ←
        postProcessing E loadSWConfig bundledPhase "build/bundled"
          polymerProject true;
      mret (λ calls,
        {| sourcesStream := sourcesStream; depsStream := depsStream;
           buildStream := buildStream; unbundledPhase := unbundledPhase;
           bundledPhase := bundledPhase;
           swPrecacheConfig := swPrecacheConfig;
           loadSWConfig := loadSWConfig;
           unbundledPostProcessing := unbundledPostProcessing;
           bundledPostProcessing := bundledPostProcessing;
           completion :=
             then_ (Promise_all [unbundledPostProcessing;
                                 bundledPostProcessing])
               (λ _ t, Some (t, Resolves VUndefined));
           external_calls := calls |})))
  end
  end.

(** The promise of the call [build(options, config)]. *)
Definition build_promise (E : Collaborators) (options : value)
    (config : ProjectConfig) : Promise :=
  match build E options config with
  | inl e => Some (0, Rejects e)
  | inr r => completion r
  end.

(** The options [addServiceWorker] is called with for a phase, given the
    loaded configuration. *)
Definition worker_options (config : ProjectConfig) (folder : string)
    (is_bundled : bool) (cfg : value) : ServiceWorkerOptions :=
  {| buildRoot := folder; project := config; swConfig := cfg;
     bundled := is_bundled |}.

Definition is_load (c : Call) : bool :=
  match c with
  | CallParsePreCacheConfig _ => true
  | CallAddServiceWorker _ _ => false
  end.

(** *** Aggregation policies

    [waits_for_all ps result]: [result] is reported only when every one of
    [ps] has settled, and a failure it reports is the failure of the
    lowest index. *)
Definition settled_by (t : nat) (p : Promise) : Prop :=
  ∃ t' o, p = Some (t', o) ∧ t' ≤ t.

Definition first_failure (ps : list Promise) : option Exception :=
  head (omap (λ p, snd <$> rejection p) ps).

Definition waits_for_all (ps : list Promise) (result : Promise) : Prop :=
  ∀ t o, result = Some (t, o) →
    Forall (settled_by t) ps ∧ ∀ e, o = Rejects e → first_failure ps = Some e.

End Build.

(** *** The [build] command: [class BuildCommand] *)

Module BuildCommand.
Import Build.

(** What a call of [run] comes to: it throws, it hands the build over to
    the [build] function of the environment, or it calls [build]. *)
Inductive RunResult :=
  | Throws (e : Exception)
  | ViaEnvironment (env_build : value) (buildOptions : value)
  | ViaBuild (buildOptions : value) (result : Exception + BuildRun).

(** [let buildOptions = {...}], with [html.collapseWhitespace] set when
    the flag is given.  The object literal reads the command's options,
    [options['add-service-worker']] first: that read throws when [options]
    is [undefined], and when it does not, none of the later ones does. *)
Definition buildOptions_of (options : value) : Exception + value :=
  match get options "add-service-worker" with
  | inl e => inl e
  | inr addServiceWorker =>
      inr (VObject (list_to_map
        [("addServiceWorker", addServiceWorker);
         ("swPrecacheConfig", prop options "sw-precache-config");
         ("insertPrefetchLinks", prop options "insert-prefetch-links");
         ("bundle", prop options "bundle");
         ("html",
          VObject (if truthy (prop options "html.collapseWhitespace")
                   then {["collapseWhitespace" := VBool true]} else ∅));
         ("css", VObject ∅);
         ("js", VObject ∅)]))
  end.

(** [f(buildOptions, config)] for the [build] of the environment: calling
    what is no function throws. *)
Definition call_env_build (f : value) (buildOptions : value) : RunResult :=
  match f with
  | VFunction _ => ViaEnvironment f buildOptions
  | _ => Throws (TypeError "options.env.build is not a function")
  end.

(** [run(options, config)] *)
Definition run (E : Collaborators) (options : value)
    (config : ProjectConfig) : RunResult :=
  match buildOptions_of options with
  | inl e => Throws e
  | inr buildOptions =>
      if truthy (prop options "env")
         && truthy (prop (prop options "env") "build")
      then call_env_build (prop (prop options "env") "build") buildOptions
      else ViaBuild buildOptions (build E buildOptions config)
  end.

End BuildCommand.

(** ** Concrete scenarios, used to exercise the statements below *)

Module Scenario.
Import Streams Build.

Definition config : ProjectConfig :=
  {| root := "/app"; entrypoint := "index.html"; shell := "shell.html";
     fragments := []; sourceGlobs := ["src/**/*"];
     includeDependencies := [] |}.

Definition join_path (root : string) (p : value) : string :=
  match p with
  | VString s => root +:+ "/" +:+ s
  | _ => root
  end.

(** Every collaborator succeeds: the configuration is loaded in turn 1,
    both phases end in turn 3, a service worker takes one turn. *)
Definition smooth : Collaborators :=
  {| path_resolve := join_path;
     parsePreCacheConfig := λ _, Some (1, Resolves VUndefined);
     emission := λ _, [(2, data); (3, end_)];
     addServiceWorker := λ _, Some (1, Resolves VUndefined) |}.

Definition writes_to (folder : string) (phase : list Stage) : bool :=
  match last phase with
  | Some (dest f) => String.eqb f folder
  | _ => false
  end.

(** The bundled phase fails in turn 2, the unbundled phase in turn 5. *)
Definition both_fail : Collaborators :=
  {| path_resolve := join_path;
     parsePreCacheConfig := λ _, Some (1, Resolves VUndefined);
     emission := λ phase,
       if writes_to "build/unbundled" phase
       then [(1, data); (5, error (Failure "unbundled"))]
       else [(2, error (Failure "bundled"))];
     addServiceWorker := λ _, Some (1, Resolves VUndefined) |}.


(** The configuration file is malformed. *)
Definition malformed : Collaborators :=
  {| path_resolve := join_path;
     parsePreCacheConfig := λ _, Some (1, Rejects (Failure "malformed"));
     emission := λ _, [(2, data); (3, end_)];
     addServiceWorker := λ _, Some (1, Resolves VUndefined) |}.

(** The option bag [{js: {}}]. *)
Definition plain_options : value := VObject {["js" := VObject ∅]}.

(** The command line [--insert-prefetch-links]. *)
Definition prefetch_flag : value :=
  VObject {["insert-prefetch-links" := VBool true]}.

(** An iterable of numbers that has been closed once. *)
Definition closed_once
    : nat * Heap nat * Streams.WritableAsyncIterable nat :=
  Streams.close [Streams.Pending] Streams.new_iterable.

(** Two numbers go through an identity transform, each [_transform]
    called once the callback of the one before has been called: item 1 is
    handed to the blocked consumer, which wakes up with it; item 2 is
    queued; the transform yields and the loop pushes item 1, then takes,
    yields and pushes item 2, then blocks; [_flush] hands it the done
    marker; it wakes up, returns and the writing is finished; [_flush]
    goes on to its callback. *)
Definition two_items : list (Event nat) :=
  [Transform 1; Advance; Settle 0; Transform 2; Settle 0] ++
  replicate 6 Advance ++ [Flush] ++ replicate 3 Advance ++
  [Settle 0; Settle 0].

End Scenario.


(** ** The other helpers of [streams.ts] *)

Module StreamUtils.
Import Build.

(** *** [getFileContents] *)

(** What the content stream of a file emits once its encoding is set: the
    chunks are strings. *)
Inductive ContentEvent :=
  | chunk (text : string)
  | finish
  | failure (e : Exception).

(** A Vinyl file: its contents are a buffer (here by the text it decodes
    to), a stream, or absent. *)
Inductive Contents :=
  | Buffer (text : string)
  | Stream (events : list ContentEvent)
  | Null.

Record File := {
  path : string;
  contents : Contents;
}.

(** [contents.join('')] *)
Definition join (chunks : list string) : string :=
  foldr String.append EmptyString chunks.

(** The listeners of the stream branch: ['data'] pushes the chunk onto
    [contents], the first ['end'] resolves with the chunks joined, the
    first ['error'] rejects.  [None]: the promise never settles. *)
Fixpoint collect (contents : list string) (events : list ContentEvent)
    : option (Exception + string) :=
  match events with
  | [] => None
  | chunk text :: rest => collect (contents ++ [text]) rest
  | finish :: _ => Some (inr (join contents))
  | failure e :: _ => Some (inl e)
  end.

(** [export async function getFileContents(file)] *)
Definition getFileContents (file : File) : option (Exception + string) :=
  match contents file with
  | Buffer text => Some (inr text)
  | Stream events => collect [] events
  | Null =>
      Some (inl (Failure ("Unable to get contents of file " +:+ path file
                          +:+ ". It has neither a buffer nor a stream.")))
  end.

(** *** [waitForAll] *)

(** [Promise.all(streams.map((s) => waitFor(s)))] *)
Definition waitForAll (streams : list Emission) : Promise :=
  Promise_all (waitFor <$> streams).

(** *** [pipeStreams] *)

Section Pipe.
Context {S : Type}.

(** What [a.pipe(b)] returns; for the streams of Node it is [b]. *)
Variable pipe : S → S → S.

(** An element of the argument of [pipeStreams]: a stream or an array of
    streams. *)
Inductive PipeStream :=
  | One (s : S)
  | Many (ss : list S).

(** [Array.prototype.concat.apply([], streams)]: arrays are spliced in, one
    level deep. *)
Definition flatten (streams : list PipeStream) : list S :=
  streams ≫= (λ p, match p with One s => [s] | Many ss => ss end).

(** [.reduce((a, b) => a.pipe(b))] from [a] on, with the calls of [pipe]
    it makes. *)
Fixpoint reduce (a : S) (rest : list S) : S * list (S * S) :=
  match rest with
  | [] => (a, [])
  | b :: rest' =>
      let '(last, calls) := reduce (pipe a b) rest' in (last, (a, b) :: calls)
  end.

(** [export function pipeStreams(streams)]; [reduce] without an initial
    value throws on an empty array. *)
Definition pipeStreams (streams : list PipeStream)
    : Exception + S * list (S * S) :=
  match flatten streams with
  | [] => inl (TypeError "Reduce of empty array with no initial value")
  | a :: rest => inr (reduce a rest)
  end.
End Pipe.

Arguments PipeStream : clear implicits.

End StreamUtils.

(** ** Derived notions for the adapter *)

Module Adapter.
Import Streams.

Section Iterable.
Context {V : Type}.

(** Several [_write] calls in a row, with the promises they return. *)
Fixpoint write_all (values : list (IteratorResult V)) (h : Heap V)
    (w : WritableAsyncIterable V)
    : list nat * Heap V * WritableAsyncIterable V :=
  match values with
  | [] => ([], h, w)
  | value :: rest =>
      let '(p, h1, w1) := _write value h w in
      let '(ps, h2, w2) := write_all rest h1 w1 in
      (p :: ps, h2, w2)
  end.

(** Several turns of the iterator's loop in a row, with what each gives. *)
Fixpoint shift_all (n : nat) (h : Heap V) (w : WritableAsyncIterable V)
    : list (Pulled V) * Heap V * WritableAsyncIterable V :=
  match n with
  | 0 => ([], h, w)
  | S n' =>
      let '(r, h1, w1) := shift h w in
      let '(rs, h2, w2) := shift_all n' h1 w1 in
      (r :: rs, h2, w2)
  end.

(** The items a schedule writes before its first [_flush]. *)
Fixpoint accepted (evs : list (Event V)) : list V :=
  match evs with
  | [] => []
  | Transform v :: rest => v :: accepted rest
  | Flush :: _ => []
  | _ :: rest => accepted rest
  end.

Fixpoint transforms (evs : list (Event V)) : nat :=
  match evs with
  | [] => 0
  | Transform _ :: rest => S (transforms rest)
  | _ :: rest => transforms rest
  end.

(** The steps of the transform's activity in a schedule. *)
Fixpoint advances (evs : list (Event V)) : nat :=
  match evs with
  | [] => 0
  | Advance :: rest => S (advances rest)
  | _ :: rest => advances rest
  end.
End Iterable.

(** The continuations of [_transform] and of [_flush] among the suspended
    ones. *)
Definition is_transform_task (t : Task) : bool :=
  match t with
  | TransformCallback _ => true
  | _ => false
  end.

Definition pending_transforms (ts : list Task) : nat :=
  length (filter is_transform_task ts).

Definition pending_flushes (ts : list Task) : nat :=
  length (filter (λ t, negb (is_transform_task t)) ts).

Section Accounting.
Context {In Out : Type} `{T : TransformIter In Out}.

(** Every call has its callback called or still pending. *)
Definition accounted (n_transforms n_flushes : nat)
    (st : AsyncTransformStream T) : Prop :=
  length (transform_callbacks st) + pending_transforms (tasks st)
  = n_transforms ∧
  length (flush_callbacks st) + pending_flushes (tasks st) = n_flushes.

(** ['error'] is emitted when the transform has thrown, and only then. *)
Definition error_once (st : AsyncTransformStream T) : Prop :=
  match driver st with
  | Failed => ∃ e, errors st = [e]
  | _ => errors st = []
  end.
End Accounting.

(** [async *_transformIter(inputs) { for await (const x of inputs) throw
    new Error('unreadable'); }]: a transform that fails on its first
    item. *)
Inductive Failing :=
  | AtLoop
  | AtThrow
  | AfterLoop.

Definition failing_resume {V} (g : Failing) : Action V V Failing :=
  match g with
  | AtLoop =>
      Pull (λ r, match r with IterValue _ => AtThrow | IterDone => AfterLoop end)
  | AtThrow => Throw "unreadable"
  | AfterLoop => Return
  end.

Definition failing (V : Type) : TransformIter V V :=
  {| Generator := Failing; _transformIter := AtLoop;
     resume := failing_resume |}.

End Adapter.

(** ** Further scenarios *)

Module FurtherScenarios.
Import Build.

(** The configuration is loaded in turn 1; the stream of the unbundled
    phase ends in turn 3, the one of the bundled phase fails in turn 0. *)
Definition bundling_fails : Collaborators :=
  {| path_resolve := Scenario.join_path;
     parsePreCacheConfig := λ _, Some (1, Resolves VUndefined);
     emission := λ phase,
       if Scenario.writes_to "build/unbundled" phase
       then [(2, data); (3, end_)]
       else [(0, error (Failure "bundled"))];
     addServiceWorker := λ _, Some (1, Resolves VUndefined) |}.

(** The command's options when the environment brings a [build] of its
    own: [{env: {build}}]. *)
Definition own_build : value :=
  VObject {["env" := VObject {["build" := VFunction "build"]}]}.

End FurtherScenarios.

(** ** Part II: properties *)

(** *** Promises and the writable iterable *)

Section IterableFacts.
Import Streams.
Context {V : Type}.

Implicit Types (h : Heap V) (w : WritableAsyncIterable V) (s : PromiseState V).
Implicit Types (x : Resolution V) (d p : nat).

Lemma alloc_lookup_old s h d : d < length h → (alloc s h).2 !! d = h !! d.
Proof. intros ?. by apply lookup_app_l. Qed.

Lemma alloc_lookup_new s h : (alloc s h).2 !! (alloc s h).1 = Some s.
Proof. unfold alloc; simpl. by rewrite lookup_app_r, Nat.sub_diag. Qed.

Lemma resolve_length d x h : length (resolve d x h) = length h.
Proof.
  unfold resolve. destruct (h !! d) as [[]|]; by rewrite ?length_insert.
Qed.

Lemma resolve_lookup_ne d d' x h : d ≠ d' → resolve d x h !! d' = h !! d'.
Proof.
  intros ?. unfold resolve.
  destruct (h !! d) as [[]|]; by rewrite ?list_lookup_insert_ne.
Qed.

Lemma resolve_lookup_pending d x h :
  h !! d = Some Pending → resolve d x h !! d = Some (Fulfilled x).
Proof.
  intros Hd. unfold resolve. rewrite Hd.
  apply list_lookup_insert_eq. by eapply lookup_lt_Some.
Qed.

(** A settled promise stays as it is. *)
Lemma resolve_lookup_settled d d' x h s :
  h !! d' = Some s → s ≠ Pending → resolve d x h !! d' = Some s.
Proof.
  intros Hd' Hs. destruct (decide (d = d')) as [->|?].
  - unfold resolve. rewrite Hd'. by destruct s.
  - by rewrite resolve_lookup_ne.
Qed.

Lemma resolve_lookup_inv d d' x h s :
  resolve d x h !! d' = Some s →
  h !! d' = Some s ∨ (d' = d ∧ h !! d = Some Pending ∧ s = Fulfilled x).
Proof.
  destruct (decide (d = d')) as [<-|?].
  - unfold resolve. destruct (h !! d) as [[]|] eqn:Hd; try (intros; left; congruence).
    rewrite list_lookup_insert_eq by (by eapply lookup_lt_Some).
    intros [= <-]. by right.
  - rewrite resolve_lookup_ne by done. by left.
Qed.

(** C1, first half: a [write] that finds the consumer blocked hands the
    item over and is settled at once. *)
Lemma write_hands_over v h w d :
  _closed w = false → blockedOn w = Some d → h !! d = Some Pending →
  ∃ p h', write v h w
          = (p, h', {| blockedOn := None; backlog := backlog w;
                       _closed := false |}) ∧
    h' !! d = Some (Fulfilled (Result (IterValue v))) ∧
    h' !! p = Some (Fulfilled Undefined).
Proof.
  intros Hc Hb Hd. unfold write, _write. rewrite Hc, Hb. unfold alloc; simpl.
  eexists _, _. split; [done|].
  assert (d < length h) by (by eapply lookup_lt_Some). split.
  - rewrite !lookup_app_l by (rewrite ?length_app, resolve_length; lia).
    by apply resolve_lookup_pending.
  - by rewrite lookup_app_r, Nat.sub_diag.
Qed.

(** What [write] does when the consumer is not blocked: the item is queued
    behind the backlog and its deferred is pending, yet the promise of
    [write] is fulfilled. *)
Lemma write_queues_and_settles v h w :
  _closed w = false → blockedOn w = None →
  ∃ p h', write v h w
          = (p, h', {| blockedOn := None;
                       backlog := backlog w ++ [(IterValue v, length h)];
                       _closed := false |}) ∧
    h' !! length h = Some Pending ∧
    h' !! p = Some (Fulfilled Undefined).
Proof.
  intros Hc Hb. unfold write, _write. rewrite Hc, Hb. unfold alloc; simpl.
  eexists _, _. split; [done|]. split.
  - rewrite lookup_app_l by (rewrite length_app; cbn; lia).
    by rewrite lookup_app_r, Nat.sub_diag.
  - by rewrite lookup_app_r, Nat.sub_diag.
Qed.

(** The promise of the inner [_write], by contrast, stays pending for a
    queued item, and is the deferred the iterator resolves when it takes
    the item. *)
Lemma _write_queues_and_waits r h w :
  blockedOn w = None →
  ∃ h', _write r h w
        = (length h, h',
           {| blockedOn := None; backlog := backlog w ++ [(r, length h)];
              _closed := _closed w |}) ∧
    h' !! length h = Some Pending.
Proof.
  intros Hb. unfold _write. rewrite Hb. unfold alloc; simpl. eexists. split; [done|].
  by rewrite lookup_app_r, Nat.sub_diag.
Qed.

(** The iterator takes the items in the order they were queued, and
    resolves the deferred of the item it takes. *)
Lemma shift_takes_oldest h w r d rest :
  backlog w = (r, d) :: rest → h !! d = Some Pending →
  ∃ h', shift h w
        = (Took r, h', {| blockedOn := blockedOn w; backlog := rest;
                          _closed := _closed w |}) ∧
    h' !! d = Some (Fulfilled Undefined) ∧
    ∀ d', d' ≠ d → h' !! d' = h !! d'.
Proof.
  intros Hb Hd. unfold shift. rewrite Hb. eexists. split; [done|]. split.
  - by apply resolve_lookup_pending.
  - intros d' ?. by apply resolve_lookup_ne.
Qed.

(** C6, as the code has it.  On a closed iterable a [write] is rejected
    with the message of the closed iterable and changes nothing else; a
    further [close] is not rejected: it sends one more done marker, to the
    blocked consumer or to the end of the backlog. *)
Theorem late_write_rejected_late_close_accepted v h w :
  _closed w = true →
  (∃ p h', write v h w = (p, h', w) ∧ h' = h ++ [Rejected closed_message] ∧
     h' !! p = Some (Rejected closed_message)) ∧
  (∃ p h' w', close h w = (p, h', w') ∧
     (∀ e, h' !! p ≠ Some (Rejected e)) ∧
     (blockedOn w = None → backlog w' = backlog w ++ [(IterDone, p)]) ∧
     (∀ d, blockedOn w = Some d → h !! d = Some Pending →
        h' !! d = Some (Fulfilled (Result IterDone)))).
Proof.
  intros Hc. split.
  - unfold write. rewrite Hc. unfold alloc; simpl. eexists _, _. split; [done|].
    split; [done|]. by rewrite lookup_app_r, Nat.sub_diag.
  - unfold close, _write, alloc. simpl. destruct (blockedOn w) as [d|]; simpl.
    + eexists _, _, _. split; [done|]. split; [|split; [done|]].
      * intros e. by rewrite lookup_app_r, Nat.sub_diag.
      * intros d' [= <-] Hd.
        assert (d < length h) by (by eapply lookup_lt_Some).
        rewrite lookup_app_l by (rewrite resolve_length; lia).
        by apply resolve_lookup_pending.
    + eexists _, _, _. split; [done|]. split; [|split; [done|done]].
      intros e. by rewrite lookup_app_r, Nat.sub_diag.
Qed.

End IterableFacts.

Section IterableExamples.
Import Streams.

Lemma late_write_rejected_late_close_accepted_witness :
  _closed Scenario.closed_once.2 = true ∧
  ∃ p (h' : Heap nat) w',
    close Scenario.closed_once.1.2 Scenario.closed_once.2 = (p, h', w') ∧
    ∀ e, h' !! p ≠ Some (Rejected e).
Proof.
  split; [reflexivity|].
  destruct (late_write_rejected_late_close_accepted 7
              Scenario.closed_once.1.2 Scenario.closed_once.2 eq_refl)
    as [_ (p & h' & w' & Hc & Hr & _)].
  by exists p, h', w'.
Defined.

(** C6 fails for [close]: a second [close] is accepted like the first, its
    promise is pending, not rejected, and a second done marker is
    queued. *)
Lemma close_after_close_is_accepted :
  _closed Scenario.closed_once.2 = true ∧
  ∃ p (h' : Heap nat) w',
    close Scenario.closed_once.1.2 Scenario.closed_once.2 = (p, h', w') ∧
    ¬ (∃ e, h' !! p = Some (Rejected e)) ∧
    h' !! p = Some Pending ∧
    backlog w' = [(IterDone, 1); (IterDone, 2)].
Proof.
  split; [reflexivity|]. eexists _, _, _. split; [reflexivity|].
  split; [by intros [e ?]|done].
Qed.

End IterableExamples.

(** *** The adapter on empty input *)

Section EmptyInput.
Import Streams.
Context {In Out : Type} `{T : TransformIter In Out}.

Implicit Types (st : AsyncTransformStream T) (evs : list (Event In)).

Lemma run_app evs1 evs2 st : run (evs1 ++ evs2) st = run evs2 (run evs1 st).
Proof. revert st. induction evs1 as [|ev evs1 IH]; intros st; cbn; auto. Qed.


Lemma idle_new : idle (new_stream (T := T)).
Proof. split; cbn; auto. Qed.

Lemma idle_flush_step st :
  idle st →
  idle (_flush st) ∧
  length (backlog (_inputs (_flush st))) = S (length (backlog (_inputs st))).
Proof.
  intros [Hd Hb Hh Ht Hq Hf Hp].
  destruct st as [h [b bl c] r i d t ps es tc fc pl ys]; cbn in *. subst.
  unfold _flush, close, _write, alloc; cbn. split; [split; cbn; auto|].
  - apply Forall_app; auto.
  - apply Forall_app; eauto.
  - apply Forall_app; auto.
  - rewrite length_app; cbn; lia.
Qed.

Lemma idle_advance st : idle st → advance st = None.
Proof. intros [Hd _ _ _ _ _ _]. unfold advance. by rewrite Hd. Qed.

Lemma idle_settle i st : idle st → settle i st = None.
Proof.
  intros [_ _ Hh Ht _ _ _]. unfold settle.
  destruct (tasks st !! i) as [t|] eqn:Hi; [|done].
  eapply Forall_lookup_1 in Ht as [p ->]; [|done].
  destruct (heap st !! p) as [s|] eqn:Hp; [|done].
  eapply Forall_lookup_1 in Hh; [|done]. by subst.
Qed.

Lemma idle_run evs st :
  idle st → has_transform evs = false →
  idle (run evs st) ∧
  length (backlog (_inputs (run evs st)))
  = length (backlog (_inputs st)) + flushes evs.
Proof.
  revert st. induction evs as [|ev evs IH]; intros st Hidle Hno.
  { cbn. split; [done|lia]. }
  destruct ev as [v| | |i]; cbn in Hno; [done|..]; cbn [run step flushes].
  - destruct (idle_flush_step st Hidle) as [Hidle' Hlen].
    destruct (IH _ Hidle' Hno) as [? ->]. split; [done|lia].
  - rewrite idle_advance by done. apply (IH _ Hidle Hno).
  - rewrite idle_settle by done. apply (IH _ Hidle Hno).
Qed.

(** C9.  When [_transform] is never called, the callback of [_flush] is
    never called, whatever else happens and however long one waits: the
    transform is never started, and every [_flush] leaves a done marker in
    the backlog that nothing takes. *)
Theorem flush_on_empty_input_never_completes evs :
  has_transform evs = false →
  let st := run evs (new_stream (T := T)) in
  flush_callbacks st = [] ∧
  pushed st = [] ∧
  driver st = NotStarted ∧
  (backlog (_inputs st)).*1 = replicate (flushes evs) IterDone.
Proof.
  intros Hno. cbn zeta.
  destruct (idle_run evs new_stream idle_new Hno) as [[Hd _ _ _ Hq Hf Hp] Hlen].
  do 3 (split; [done|]). cbn in Hlen. rewrite <- Hlen, <- (length_fmap fst).
  symmetry. apply replicate_as_Forall. split; [done|].
  apply Forall_fmap. by apply (Forall_impl _ _ _ Hq).
Qed.

End EmptyInput.

Section EmptyInputExample.
Import Streams.

Lemma flush_on_empty_input_never_completes_witness :
  flush_callbacks
    (run [Flush; Advance; Settle 0; Advance; Settle 0]
       (new_stream (T := identity nat))) = [].
Proof.
  apply (flush_on_empty_input_never_completes (T := identity nat)
           [Flush; Advance; Settle 0; Advance; Settle 0]).
  reflexivity.
Defined.

End EmptyInputExample.

(** *** Invariants of the adapter *)

Section Consistency.
Import Streams.
Context {In Out : Type} `{T : TransformIter In Out}.

Implicit Types (st : AsyncTransformStream T) (evs : list (Event In)).



Lemma consistent_new : consistent (new_stream (T := T)).
Proof.
  split; cbn; try done.
  - by left.
  - by intros v d ?%elem_of_nil.
  - by intros p ?%elem_of_nil.
  - by intros ?%elem_of_nil.
Qed.

Lemma consistent_heap_nonempty st : consistent st → 0 < length (heap st).
Proof.
  intros [[H|[_ [x H]]] _ _ _ _ _ _ _ _]; apply lookup_lt_Some in H;
    unfold _writingFinished in H; lia.
Qed.

Lemma done_delivered_advance st st' :
  advance st = Some st' → done_delivered st → done_delivered st'.
Proof.
  unfold advance, done_delivered.
  destruct st as [h [b bl c] r i d t ps es tc fc pl ys]; cbn.
  destruct d as [|g|d g|o g| |e| |]; try done.
  - destruct (resume g) as [k|o g'| |e]; cbn.
    + destruct r; [intros [= <-]; cbn; auto|].
      unfold shift, alloc; cbn. destruct bl as [|[v d] rest]; cbn.
      * intros [= <-]; cbn. intros [?|(? & ? & ? & ?)]; done.
      * destruct v; intros [= <-]; cbn; auto.
        intros [?|(? & ? & ? & ?)]; done.
    + intros [= <-]; cbn. intros [?|(? & ? & ? & ?)]; [auto|done].
    + intros [= <-]; cbn. intros [?|(? & ? & ? & ?)]; [auto|done].
    + intros [= <-]; cbn. intros [?|(? & ? & ? & ?)]; [auto|done].
  - destruct (h !! d) as [[|[|value]|]|] eqn:Hd; try done.
    destruct (resume g) as [k|o g'| |e]; try done.
    intros [= <-] [?|(d' & g' & [= <- <-] & Hd')].
    + destruct value; cbn; auto.
    + rewrite Hd in Hd'. injection Hd' as ->. cbn. auto.
  - intros [= <-]; cbn. intros [?|(? & ? & ? & ?)]; [auto|done].
  - intros [= <-]; cbn. intros [?|(? & ? & ? & ?)]; [auto|done].
  - intros [= <-]; cbn. intros [?|(? & ? & ? & ?)]; [auto|done].
Qed.

(** Fields of [consistent] that a step leaves as they are. *)
Local Ltac keep_heap H := by destruct H as [?|[? _]]; [left|].
Local Ltac keep_init H := by intros Hi; specialize (H Hi).
Local Ltac not_blocked H :=
  by intros d0 Hb0; destruct (H d0 Hb0) as [[? ?] _].
Local Ltac keep_close H Hdd :=
  let p := fresh "p" in let Hp := fresh "Hp" in let Hs := fresh "Hs" in
  intros p Hp; destruct (H p Hp) as (? & ? & ? & Hs);
  do 3 (split; [done|]);
  destruct Hs as [?|[? ?]]; [by left|right; split; [done|by apply Hdd]].
Local Ltac keep_writing H Hdd :=
  let Hw := fresh "Hw" in
  intros Hw; destruct (H Hw); split; [by apply Hdd|done].
Local Ltac not_flushed H :=
  by intros Hf0; destruct (H Hf0) as (_ & _ & _ & ?).

Lemma advance_consistent st st' :
  consistent st → advance st = Some st' → consistent st'.
Proof.
  intros Hc Hadv. pose proof (done_delivered_advance _ _ Hadv) as Hdd.
  pose proof (consistent_heap_nonempty _ Hc) as Hlen.
  destruct Hc as [Hheap Hinit Hawait Hblocked Hbacklog Hclose Hwriting
                    Hflushed Hyield].
  unfold advance in Hadv.
  destruct st as [h [b bl c] r i d t ps es tc fc pl ys]; cbn in *.
  destruct d as [|g|d g|o g| |e| |]; try done.
  - destruct (resume g) as [k|o g'| |e]; cbn in *.
    + destruct r; [injection Hadv as <-|].
      { split; cbn;
          [keep_heap Hheap|keep_init Hinit|done|not_blocked Hblocked|done
          |keep_close Hclose Hdd|keep_writing Hwriting Hdd
          |not_flushed Hflushed|done]. }
      unfold shift, alloc in Hadv. destruct bl as [|[v d] rest]; cbn in *.
      * injection Hadv as <-. split; cbn.
        -- destruct Hheap as [Hh|[? _]]; [left|done].
           by rewrite lookup_app_l.
        -- keep_init Hinit.
        -- intros d0 g0 [= <- <-]. left. split; [done|].
           by rewrite lookup_app_r, Nat.sub_diag.
        -- intros d0 [= <-]. split; [eauto|]. split; [done|].
           rewrite length_app; cbn; lia.
        -- by intros v d ?%elem_of_nil.
        -- intros p Hp. destruct (Hclose p Hp) as (? & ? & ? & Hs).
           split; [rewrite length_app; cbn; lia|].
           split; [intros [= <-]; lia|]. split; [done|].
           rewrite lookup_app_l by lia.
           destruct Hs as [?|[? ?]]; [by left|right; split; [done|by apply Hdd]].
        -- keep_writing Hwriting Hdd.
        -- not_flushed Hflushed.
        -- done.
      * destruct (Hbacklog v d) as [Hd Hdone]; [by left|].
        assert (consistent
                  (MkStream (resolve d Undefined h) (MkIterable b rest c)
                     (match v with IterDone => true | _ => false end) i
                     (Running (k v)) t ps es tc fc
                     (match v with IterValue x => pl ++ [x] | _ => pl end)
                     ys)) as Hgoal; [|by destruct v; injection Hadv as <-].
        assert (done_delivered
                  (MkStream (resolve d Undefined h) (MkIterable b rest c)
                     (match v with IterDone => true | _ => false end) i
                     (Running (k v)) t ps es tc fc
                     (match v with IterValue x => pl ++ [x] | _ => pl end)
                     ys) ↔ v = IterDone) as Hdd'.
        { unfold done_delivered; cbn. destruct v; split; try done.
          - by intros [?|(? & ? & ? & ?)].
          - by left. }
        split; cbn.
        -- rewrite resolve_lookup_ne by (unfold _writingFinished; lia).
           keep_heap Hheap.
        -- keep_init Hinit.
        -- done.
        -- not_blocked Hblocked.
        -- intros v' d' Hin. rewrite resolve_length. apply Hbacklog. by right.
        -- intros p Hp. destruct (Hclose p Hp) as (? & ? & ? & Hs).
           rewrite resolve_length. do 3 (split; [done|]).
           destruct (decide (d = p)) as [->|Hne].
           ++ right. split; [|apply Hdd'; by apply Hdone].
              destruct Hs as [Hs|[[x Hs] _]].
              ** exists Undefined. by apply resolve_lookup_pending.
              ** exists x. by apply (resolve_lookup_settled _ _ _ _ _ Hs).
           ++ rewrite resolve_lookup_ne by done.
              destruct Hs as [?|[? Hs]]; [by left|right; split; [done|]].
              by destruct Hs as [?|(? & ? & ? & ?)].
        -- intros Hw. destruct (Hwriting Hw) as [Hs ?].
           by destruct Hs as [?|(? & ? & ? & ?)].
        -- not_flushed Hflushed.
        -- done.
    + injection Hadv as <-. split; cbn;
        [keep_heap Hheap|keep_init Hinit|done|not_blocked Hblocked|done
        |keep_close Hclose Hdd|keep_writing Hwriting Hdd
        |not_flushed Hflushed|].
      rewrite Hyield; cbn. by rewrite app_nil_r.
    + injection Hadv as <-. split; cbn;
        [keep_heap Hheap|keep_init Hinit|done|not_blocked Hblocked|done
        |keep_close Hclose Hdd|keep_writing Hwriting Hdd
        |not_flushed Hflushed|done].
    + injection Hadv as <-. split; cbn;
        [keep_heap Hheap|keep_init Hinit|done|not_blocked Hblocked|done
        |keep_close Hclose Hdd|keep_writing Hwriting Hdd
        |not_flushed Hflushed|done].
  - destruct (h !! d) as [[|[|value]|]|] eqn:Hd; try done.
    destruct (resume g) as [k|o g'| |e]; try done.
    injection Hadv as <-.
    destruct (Hawait d g eq_refl) as [[_ ?]|[-> _]]; [congruence|].
    destruct value; (split; cbn;
        [keep_heap Hheap|keep_init Hinit|done|done|done
        |keep_close Hclose Hdd|keep_writing Hwriting Hdd
        |not_flushed Hflushed|done]).
  - injection Hadv as <-. split; cbn;
      [keep_heap Hheap|keep_init Hinit|done|not_blocked Hblocked|done
      |keep_close Hclose Hdd|keep_writing Hwriting Hdd
      |not_flushed Hflushed|].
    rewrite Hyield; cbn. by rewrite app_nil_r.
  - injection Hadv as <-. split; cbn.
    + right. split; [done|]. destruct Hheap as [?|[? _]]; [|done].
      exists Undefined. by apply resolve_lookup_pending.
    + keep_init Hinit.
    + done.
    + not_blocked Hblocked.
    + intros v d Hin. rewrite resolve_length. by apply Hbacklog.
    + intros p Hp. destruct (Hclose p Hp) as (? & ? & ? & Hs).
      rewrite resolve_length. do 3 (split; [done|]).
      rewrite resolve_lookup_ne by (unfold _writingFinished; lia).
      destruct Hs as [?|[? ?]]; [by left|right; split; [done|by apply Hdd]].
    + keep_writing Hwriting Hdd.
    + not_flushed Hflushed.
    + done.
  - injection Hadv as <-. split; cbn;
      [keep_heap Hheap|keep_init Hinit|done|not_blocked Hblocked|done
      |keep_close Hclose Hdd|keep_writing Hwriting Hdd
      |not_flushed Hflushed|done].
Qed.
Lemma elem_of_list_insert_inv {A} (l : list A) i x y :
  y ∈ <[i:=x]> l → y = x ∨ y ∈ l.
Proof.
  intros [j Hj]%list_elem_of_lookup.
  apply list_lookup_insert_Some in Hj as [(_ & -> & _)|[_ Hj]]; [by left|].
  right. by eapply list_elem_of_lookup_2.
Qed.

Lemma done_delivered_mono st st' :
  driver st' = driver st →
  (inputs_returned st = true → inputs_returned st' = true) →
  (∀ d s, heap st !! d = Some s → s ≠ Pending → heap st' !! d = Some s) →
  done_delivered st → done_delivered st'.
Proof.
  intros Hd Hr Hh [?|(d & g & ? & Hs)]; [left; auto|right].
  exists d, g. rewrite Hd. split; [done|]. by apply Hh.
Qed.

(** The first half of [_initializeOnce]: the generator is created. *)
Lemma start_consistent st :
  consistent st → _initialized st = false →
  consistent (set_driver (Running _transformIter) (set_initialized st)).
Proof.
  intros Hc Hi.
  destruct Hc as [Hheap Hinit Hawait Hblocked Hbacklog Hclose Hwriting
                    Hflushed Hyield].
  specialize (Hinit Hi).
  destruct st as [h [b bl c] r i d t ps es tc fc pl ys]; cbn in *.
  subst d i.
  assert (∀ d0 : Driver T, d0 = Running _transformIter →
          done_delivered (MkStream h (MkIterable b bl c) r false NotStarted
                            t ps es tc fc pl ys) →
          done_delivered (MkStream h (MkIterable b bl c) r true d0
                            t ps es tc fc pl ys)) as Hdd.
  { intros d0 -> [?|(? & ? & ? & ?)]; [by left|done]. }
  specialize (Hdd _ eq_refl).
  split; cbn;
    [keep_heap Hheap|done|done|not_blocked Hblocked|done
    |keep_close Hclose Hdd|keep_writing Hwriting Hdd
    |not_flushed Hflushed|done].
Qed.

Lemma _initializeOnce_consistent st :
  consistent st → consistent (_initializeOnce st).
Proof.
  intros Hc. unfold _initializeOnce.
  destruct (_initialized st) eqn:Hi; [done|].
  pose proof (start_consistent st Hc Hi) as Hc1.
  destruct (advance _) as [st'|] eqn:Hadv; cbn; [|done].
  by eapply advance_consistent.
Qed.


Lemma elem_of_snoc_ne {A} (l : list A) x y : x ∈ l ++ [y] → x ≠ y → x ∈ l.
Proof.
  intros [?|Hx%list_elem_of_singleton]%elem_of_app ?; [done|congruence].
Qed.

Lemma write_consistent st v p h w :
  consistent st → write v (heap st) (_inputs st) = (p, h, w) →
  consistent (set_tasks (tasks st ++ [TransformCallback p]) (set_io h w st)).
Proof.
  intros Hc Hw. pose proof (consistent_heap_nonempty _ Hc) as Hlen.
  destruct Hc as [Hheap Hinit Hawait Hblocked Hbacklog Hclose Hwriting
                    Hflushed Hyield].
  destruct st as [h0 [b bl c] r i d t ps es tc fc pl ys]; cbn in *.
  unfold write, _write, alloc in Hw; cbn in Hw.
  assert (∀ q x, x ∈ t ++ [TransformCallback q] →
            (∀ q', x ≠ TransformCallback q') → x ∈ t) as Htasks.
  { intros q x Hin Hx. by eapply elem_of_snoc_ne. }
  destruct c.
  { (* the iterable is closed: the write is rejected *)
    injection Hw as <- <- <-.
    assert (∀ t', done_delivered (MkStream h0 (MkIterable b bl true) r i d
                              t ps es tc fc pl ys) →
            done_delivered (MkStream (h0 ++ [Rejected closed_message])
                              (MkIterable b bl true) r i d t' ps es tc fc pl
                              ys)) as Hdd.
    { intros t'. apply done_delivered_mono; cbn; [done..|].
      intros d0 s Hs _. by apply lookup_app_l_Some. }
    split; cbn.
    - destruct Hheap as [?|[? [x ?]]]; [left|right; split; [done|exists x]];
        by apply lookup_app_l_Some.
    - done.
    - intros d0 g Hd. destruct (Hawait d0 g Hd) as [[? ?]|[? [x ?]]];
        [left|right]; (split; [done|]); [|exists x]; by apply lookup_app_l_Some.
    - intros d0 Hb. destruct (Hblocked d0 Hb) as (? & ? & ?).
      do 2 (split; [done|]). rewrite length_app; cbn; lia.
    - intros v0 d0 Hin. destruct (Hbacklog v0 d0 Hin) as [? Hdone].
      split; [rewrite length_app; cbn; lia|]. intros Hin'. apply Hdone.
      by eapply Htasks.
    - intros p Hp. apply Htasks in Hp; [|done].
      destruct (Hclose p Hp) as (? & ? & ? & Hs).
      split; [rewrite length_app; cbn; lia|]. do 2 (split; [done|]).
      destruct Hs as [?|[[x ?] ?]]; [left|right; split; [exists x|by apply Hdd]];
        by apply lookup_app_l_Some.
    - intros Hp. apply Htasks in Hp; [|done].
      destruct (Hwriting Hp). split; [by apply Hdd|done].
    - done.
    - done. }
  destruct b as [d0|].
  - (* the consumer is blocked on [d0] *)
    injection Hw as <- <- <-.
    destruct (Hblocked d0 eq_refl) as ([g ->] & -> & Hd0).
    destruct (Hawait d0 g eq_refl) as [[_ Hpend]|[? _]]; [|done].
    assert (∀ d1 s, h0 !! d1 = Some s → s ≠ Pending →
              ((resolve d0 (Result (IterValue v)) h0 ++ [Fulfilled Undefined])
                 ++ [Fulfilled Undefined]) !! d1 = Some s) as Hsettled.
    { intros d1 s Hs ?. do 2 apply lookup_app_l_Some.
      by eapply resolve_lookup_settled. }
    assert (∀ d1, d1 ≠ d0 → d1 < length h0 →
              ((resolve d0 (Result (IterValue v)) h0 ++ [Fulfilled Undefined])
                 ++ [Fulfilled Undefined]) !! d1 = h0 !! d1) as Hother.
    { intros d1 ? ?.
      rewrite !lookup_app_l by (rewrite ?length_app, resolve_length; lia).
      by apply resolve_lookup_ne. }
    assert (∀ t', done_delivered (MkStream h0 (MkIterable (Some d0) [] false)
                              r i (AwaitingInput d0 g) t ps es tc fc pl ys) →
            done_delivered
              (MkStream ((resolve d0 (Result (IterValue v)) h0
                            ++ [Fulfilled Undefined]) ++ [Fulfilled Undefined])
                 (MkIterable None [] false) r i (AwaitingInput d0 g) t' ps es
                 tc fc pl ys)) as Hdd.
    { intros t'. by apply done_delivered_mono. }
    split; cbn.
    + rewrite Hother by (unfold _writingFinished; lia). keep_heap Hheap.
    + done.
    + intros d1 g1 [= <- <-]. right. split; [done|]. exists (IterValue v).
      do 2 apply lookup_app_l_Some. by apply resolve_lookup_pending.
    + done.
    + by intros v0 d1 ?%elem_of_nil.
    + intros p Hp. apply Htasks in Hp; [|done].
      destruct (Hclose p Hp) as (? & ? & ? & Hs).
      split; [rewrite !length_app, resolve_length; cbn; lia|].
      do 2 (split; [done|]).
      rewrite Hother by (try lia; congruence).
      destruct Hs as [?|[? ?]]; [by left|right; split; [done|by apply Hdd]].
    + intros Hp. apply Htasks in Hp; [|done].
      destruct (Hwriting Hp). split; [by apply Hdd|done].
    + done.
    + done.
  - (* the consumer is not blocked: the item joins the backlog *)
    injection Hw as <- <- <-.
    assert (∀ d1 s, h0 !! d1 = Some s →
              ((h0 ++ [Pending]) ++ [Fulfilled Undefined]) !! d1 = Some s)
      as Hold.
    { intros d1 s Hs. by do 2 apply lookup_app_l_Some. }
    assert (∀ t', done_delivered (MkStream h0 (MkIterable None bl false)
                              r i d t ps es tc fc pl ys) →
            done_delivered
              (MkStream ((h0 ++ [Pending]) ++ [Fulfilled Undefined])
                 (MkIterable None (bl ++ [(IterValue v, length h0)]) false)
                 r i d t' ps es tc fc pl ys)) as Hdd.
    { intros t'. apply done_delivered_mono; cbn; [done..|]. eauto. }
    split; cbn.
    + destruct Hheap as [?|[? [x ?]]]; [left|right; split; [done|exists x]];
        by apply Hold.
    + done.
    + intros d0 g Hd. destruct (Hawait d0 g Hd) as [[? ?]|[? [x ?]]];
        [done|right]. split; [done|]. exists x. by apply Hold.
    + done.
    + intros v0 d0 [Hin|[= -> ->]%list_elem_of_singleton]%elem_of_app.
      * destruct (Hbacklog v0 d0 Hin) as [? Hdone].
        split; [rewrite !length_app; cbn; lia|]. intros Hin'. apply Hdone.
        by eapply Htasks.
      * split; [rewrite !length_app; cbn; lia|]. intros Hp.
        apply Htasks in Hp; [|done]. destruct (Hclose _ Hp). lia.
    + intros p Hp. apply Htasks in Hp; [|done].
      destruct (Hclose p Hp) as (? & ? & ? & Hs).
      split; [rewrite !length_app; cbn; lia|]. do 2 (split; [done|]).
      destruct Hs as [?|[[x ?] ?]]; [left|right; split; [exists x|by apply Hdd]];
        by apply Hold.
    + intros Hp. apply Htasks in Hp; [|done].
      destruct (Hwriting Hp). split; [by apply Hdd|done].
    + done.
    + done.
Qed.


Lemma _transform_consistent st v : consistent st → consistent (_transform v st).
Proof.
  intros Hc. apply _initializeOnce_consistent in Hc. unfold _transform.
  destruct (write v _ _) as [[p h] w] eqn:Hw. by eapply write_consistent.
Qed.

Lemma _flush_consistent st : consistent st → consistent (_flush st).
Proof.
  intros Hc. pose proof (consistent_heap_nonempty _ Hc) as Hlen.
  destruct Hc as [Hheap Hinit Hawait Hblocked Hbacklog Hclose Hwriting
                    Hflushed Hyield].
  unfold _flush, close, _write, alloc.
  destruct st as [h0 [b bl c] r i d t ps es tc fc pl ys]; cbn in *.
  destruct b as [d0|]; cbn.
  - (* the consumer is blocked on [d0]: it is handed the done marker *)
    destruct (Hblocked d0 eq_refl) as ([g ->] & -> & Hd0).
    destruct (Hawait d0 g eq_refl) as [[_ Hpend]|[? _]]; [|done].
    assert (∀ d1, d1 ≠ d0 → d1 < length h0 →
              (resolve d0 (Result IterDone) h0 ++ [Fulfilled Undefined]) !! d1
              = h0 !! d1) as Hother.
    { intros d1 ? ?. rewrite lookup_app_l by (rewrite resolve_length; lia).
      by apply resolve_lookup_ne. }
    assert (∀ c' t', done_delivered
              (MkStream (resolve d0 (Result IterDone) h0 ++ [Fulfilled Undefined])
                 (MkIterable None [] c') r i (AwaitingInput d0 g) t' ps es
                 tc fc pl ys)) as Hdd.
    { intros c' t'. right. exists d0, g. split; [done|]. cbn.
      apply lookup_app_l_Some. by apply resolve_lookup_pending. }
    split; cbn.
    + rewrite Hother by (unfold _writingFinished; lia). keep_heap Hheap.
    + done.
    + intros d1 g1 [= <- <-]. right. split; [done|]. exists IterDone.
      apply lookup_app_l_Some. by apply resolve_lookup_pending.
    + done.
    + by intros v0 d1 ?%elem_of_nil.
    + intros p [Hp|[= ->]%list_elem_of_singleton]%elem_of_app.
      * destruct (Hclose p Hp) as (? & ? & ? & Hs).
        split; [rewrite !length_app, resolve_length; cbn; lia|].
        do 2 (split; [done|]).
        rewrite Hother by (try lia; congruence).
        destruct Hs as [?|[? ?]]; [by left|right; split; [done|apply Hdd]].
      * split; [rewrite !length_app, resolve_length; cbn; lia|].
        do 2 (split; [done|]). right. split; [|apply Hdd].
        exists Undefined. by rewrite lookup_app_r, resolve_length, Nat.sub_diag.
    + intros Hp. split; [apply Hdd|done].
    + intros Hf. by destruct (Hflushed Hf) as (? & ? & ? & ?).
    + done.
  - (* the consumer is not blocked: the done marker joins the backlog *)
    assert (∀ d1 s, h0 !! d1 = Some s → (h0 ++ [Pending]) !! d1 = Some s)
      as Hold.
    { intros d1 s Hs. by apply lookup_app_l_Some. }
    assert (∀ c' t', done_delivered (MkStream h0 (MkIterable None bl c)
                              r i d t ps es tc fc pl ys) →
            done_delivered
              (MkStream (h0 ++ [Pending])
                 (MkIterable None (bl ++ [(IterDone, length h0)]) c')
                 r i d t' ps es tc fc pl ys)) as Hdd.
    { intros c' t'. apply done_delivered_mono; cbn; [done..|]. eauto. }
    split; cbn.
    + destruct Hheap as [?|[? [x ?]]]; [left|right; split; [done|exists x]];
        by apply Hold.
    + done.
    + intros d0 g Hd. destruct (Hawait d0 g Hd) as [[? ?]|[? [x ?]]];
        [done|right]. split; [done|]. exists x. by apply Hold.
    + done.
    + intros v0 d0 [Hin|[= -> ->]%list_elem_of_singleton]%elem_of_app.
      * destruct (Hbacklog v0 d0 Hin) as [? Hdone].
        split; [rewrite !length_app; cbn; lia|].
        intros [Hin'|[= ->]%list_elem_of_singleton]%elem_of_app; [auto|lia].
      * split; [rewrite !length_app; cbn; lia|done].
    + intros p [Hp|[= ->]%list_elem_of_singleton]%elem_of_app.
      * destruct (Hclose p Hp) as (? & ? & ? & Hs).
        split; [rewrite !length_app; cbn; lia|]. do 2 (split; [done|]).
        destruct Hs as [?|[[x ?] ?]];
          [left|right; split; [exists x|by apply Hdd]]; by apply Hold.
      * split; [rewrite !length_app; cbn; lia|]. do 2 (split; [done|]).
        left. by rewrite lookup_app_r, Nat.sub_diag.
    + intros [Hp|[=]%list_elem_of_singleton]%elem_of_app.
      destruct (Hwriting Hp). split; [by apply Hdd|done].
    + intros Hf. by destruct (Hflushed Hf) as (? & ? & ? & ?).
    + done.
Qed.

Lemma settle_consistent i st st' :
  consistent st → settle i st = Some st' → consistent st'.
Proof.
  intros Hc Hs.
  destruct Hc as [Hheap Hinit Hawait Hblocked Hbacklog Hclose Hwriting
                    Hflushed Hyield].
  unfold settle in Hs.
  destruct st as [h0 [b bl c] r i0 d t ps es tc fc pl ys]; cbn in *.
  assert (∀ t' tc' fc', done_delivered (MkStream h0 (MkIterable b bl c)
                            r i0 d t ps es tc fc pl ys) →
          done_delivered (MkStream h0 (MkIterable b bl c) r i0 d t' ps es
                            tc' fc' pl ys)) as Hdd.
  { intros t' tc' fc'. by apply done_delivered_mono. }
  assert (∀ t' tc' fc',
            (∀ x, x ∈ t' → x ∈ t) → fc' = fc →
            consistent (MkStream h0 (MkIterable b bl c) r i0 d t' ps es
                          tc' fc' pl ys)) as Hsub.
  { intros t' tc' fc' Ht ->. split; cbn; try done.
    - intros v0 d0 Hin. destruct (Hbacklog v0 d0 Hin). split; auto.
    - intros p Hp%Ht. destruct (Hclose p Hp) as (? & ? & ? & Hs').
      do 3 (split; [done|]).
      destruct Hs' as [?|[? ?]]; [by left|right; split; [done|by apply Hdd]].
    - intros Hp%Ht. destruct (Hwriting Hp). split; [by apply Hdd|done]. }
  destruct (t !! i) as [[p|p|]|] eqn:Hi; [| | |done].
  - destruct (h0 !! p) as [[|x|e]|]; try done; injection Hs as <-;
      apply Hsub; try done; intros x0; apply list_elem_of_delete_inv.
  - apply list_elem_of_lookup_2 in Hi as Hin.
    destruct (Hclose p Hin) as (? & ? & ? & Hp).
    destruct (h0 !! p) as [[|x|e]|] eqn:Hhp; try done.
    + injection Hs as <-.
      destruct Hp as [?|[_ Hdone]]; [done|].
      split; cbn; try done.
      * intros v0 d0 Hin0. destruct (Hbacklog v0 d0 Hin0) as [? Hd].
        split; [done|]. by intros [?|?]%elem_of_list_insert_inv; [|auto].
      * intros q [?|Hq]%elem_of_list_insert_inv; [done|].
        destruct (Hclose q Hq) as (? & ? & ? & Hs').
        do 3 (split; [done|]).
        destruct Hs' as [?|[? ?]]; [by left|right; split; [done|by apply Hdd]].
    + by destruct Hp as [?|[[? ?] _]].
  - destruct (h0 !! _writingFinished) as [[|x|e]|] eqn:Hwf; try done.
    + injection Hs as <-.
      apply list_elem_of_lookup_2 in Hi as Hin.
      destruct (Hwriting Hin) as [Hdone ?].
      destruct Hheap as [?|[-> _]]; [done|].
      assert (consistent (MkStream h0 (MkIterable b bl c) r i0 Finished
                            (delete i t) ps es tc fc pl ys)) as Hc'.
      { apply Hsub; [|done]. intros x0; apply list_elem_of_delete_inv. }
      destruct Hc' as [? ? ? ? ? ? ? ? ?]. split; cbn in *; try done.
      intros _. split.
      * apply Forall_app. split; [|by constructor].
        destruct fc as [|o fc']; [constructor|]. by destruct Hflushed.
      * split; [done|]. split; [|done].
        by destruct Hdone as [?|(? & ? & ? & ?)].
    + by destruct Hheap as [?|[_ [? ?]]].
Qed.

Lemma step_consistent ev st : consistent st → consistent (step ev st).
Proof.
  intros Hc. destruct ev as [v| | |i]; cbn.
  - by apply _transform_consistent.
  - by apply _flush_consistent.
  - destruct (advance st) as [st'|] eqn:Hadv; cbn; [|done].
    by eapply advance_consistent.
  - destruct (settle i st) as [st'|] eqn:Hs; cbn; [|done].
    by eapply settle_consistent.
Qed.

Lemma run_consistent evs st : consistent st → consistent (run evs st).
Proof.
  revert st. induction evs as [|ev evs IH]; intros st Hc; cbn; [done|].
  by apply IH, step_consistent.
Qed.

End Consistency.

(** *** The done marker *)

Section MarkerFacts.
Import Streams.
Context {In Out : Type} `{T : TransformIter In Out}.

Implicit Types (st : AsyncTransformStream T) (evs : list (Event In)).

Lemma closed_if_sent_new : closed_if_sent (new_stream (T := T)).
Proof.
  intros [?|[(? & ? & ? & ?)|[d ?%elem_of_nil]]]; done.
Qed.

Lemma closed_if_sent_advance st st' :
  closed_if_sent st → advance st = Some st' → closed_if_sent st'.
Proof.
  unfold closed_if_sent, done_sent, advance.
  destruct st as [h [b bl c] r i d t ps es tc fc pl ys]; cbn.
  intros Hinv.
  destruct d as [|g|d g|o g| |e| |]; try done.
  - destruct (resume g) as [k|o g'| |e]; cbn.
    + destruct r; [intros [= <-]; cbn; intros _; apply Hinv; by left|].
      unfold shift, alloc. destruct bl as [|[v d] rest]; cbn.
      * intros [= <-]; cbn.
        intros [?|[(d0 & g0 & [= <- <-] & Hd)|[d0 ?%elem_of_nil]]]; try done.
        by rewrite lookup_app_r, Nat.sub_diag in Hd.
      * destruct v as [v|]; intros [= <-]; cbn.
        -- intros [?|[(? & ? & ? & ?)|[d0 Hin]]]; try done.
           apply Hinv. right; right. exists d0. by right.
        -- intros _. apply Hinv. right; right. exists d. by left.
    + intros [= <-]; cbn. intros [?|[(? & ? & ? & ?)|?]]; try done; auto.
    + intros [= <-]; cbn. intros [?|[(? & ? & ? & ?)|?]]; try done; auto.
    + intros [= <-]; cbn. intros [?|[(? & ? & ? & ?)|?]]; try done; auto.
  - destruct (h !! d) as [[|[|value]|]|] eqn:Hd; try done.
    destruct (resume g) as [k|o g'| |e]; try done.
    destruct value as [v|]; intros [= <-]; cbn.
    + intros [?|[(? & ? & ? & ?)|?]]; try done; auto.
    + intros _. apply Hinv. right; left. by exists d, g.
  - intros [= <-]; cbn. intros [?|[(? & ? & ? & ?)|?]]; try done; auto.
  - intros [= <-]; cbn. intros [?|[(? & ? & ? & ?)|?]]; try done; auto.
  - intros [= <-]; cbn. intros [?|[(? & ? & ? & ?)|?]]; try done; auto.
Qed.

Lemma closed_if_sent_step ev st :
  closed_if_sent st → closed_if_sent (step ev st).
Proof.
  intros Hinv. destruct ev as [v| | |i]; cbn [step].
  - assert (closed_if_sent (_initializeOnce st)) as Hinv1.
    { unfold _initializeOnce. destruct (_initialized st); [done|].
      assert (closed_if_sent
                (set_driver (Running _transformIter) (set_initialized st)))
        as Hinv0.
      { unfold closed_if_sent, done_sent in *.
        destruct st as [h [b bl c] r i d t ps es tc fc pl ys]; cbn in *.
        intros [?|[(? & ? & ? & ?)|?]]; try done; auto. }
      destruct (advance _) as [st'|] eqn:Hadv; cbn; [|done].
      by eapply closed_if_sent_advance. }
    unfold _transform. revert Hinv1. generalize (_initializeOnce st).
    clear st Hinv. intros st Hinv.
    unfold closed_if_sent, done_sent, write, _write, alloc in *.
    destruct st as [h [b bl c] r i d t ps es tc fc pl ys]; cbn in *.
    destruct c; [done|]. destruct b as [d0|]; cbn.
    + intros [?|[(d1 & g1 & -> & Hd)|?]]; [auto| |auto].
      apply lookup_app_Some in Hd as [Hd|[_ Hd]];
        [|by destruct (_ - _) as [|[|?]]].
      apply lookup_app_Some in Hd as [Hd|[_ Hd]];
        [|by destruct (_ - _) as [|[|?]]].
      apply resolve_lookup_inv in Hd as [Hd|(_ & _ & [=])].
      apply Hinv. right; left. by exists d1, g1.
    + intros [?|[(d1 & g1 & -> & Hd)|[d1 Hin]]]; [auto| |].
      * apply lookup_app_Some in Hd as [Hd|[_ Hd]];
          [|by destruct (_ - _) as [|[|?]]].
        apply lookup_app_Some in Hd as [Hd|[_ Hd]];
          [|by destruct (_ - _) as [|[|?]]].
        apply Hinv. right; left. by exists d1, g1.
      * apply elem_of_app in Hin as [Hin|[=]%list_elem_of_singleton].
        apply Hinv. right; right. by exists d1.
  - intros _. unfold _flush, close, _write, alloc.
    destruct st as [h [b bl c] r i d t ps es tc fc pl ys]; cbn.
    by destruct b.
  - destruct (advance st) as [st'|] eqn:Hadv; cbn; [|done].
    by eapply closed_if_sent_advance.
  - unfold settle, closed_if_sent, done_sent in *.
    destruct st as [h [b bl c] r i0 d t ps es tc fc pl ys]; cbn in *.
    destruct (t !! i) as [[p|p|]|]; [| | |done].
    + destruct (h !! p) as [[|x|e]|]; cbn; exact Hinv.
    + destruct (h !! p) as [[|x|e]|]; cbn; exact Hinv.
    + destruct (h !! _writingFinished) as [[|x|e]|]; cbn; exact Hinv.
Qed.

Lemma closed_if_sent_run evs st :
  closed_if_sent st → closed_if_sent (run evs st).
Proof.
  revert st. induction evs as [|ev evs IH]; intros st Hinv; cbn [run]; [done|].
  by apply IH, closed_if_sent_step.
Qed.

(** X16.  The done marker is only ever sent by [close]: whenever the
    input iterator has returned, the input has been closed before. *)
Lemma done_only_after_close evs :
  let st := run evs (new_stream (T := T)) in
  inputs_returned st = true → _closed (_inputs st) = true.
Proof.
  cbn zeta. intros Hr.
  apply (closed_if_sent_run evs _ closed_if_sent_new). by left.
Qed.

End MarkerFacts.

(** *** Completion *)

Section Completion.
Import Streams.
Context {In Out : Type} `{T : TransformIter In Out}.

(** C3.  Whatever the transform and whatever the schedule, once the
    callback of [_flush] has been called it has been called without
    error, and by then the input is closed, the input iterator has handed
    the done marker to the transform, the transform has returned, and
    every value it yielded has been pushed. *)
Theorem flush_completes_last (evs : list (Event In)) :
  let st := run evs (new_stream (T := T)) in
  flush_callbacks st ≠ [] →
  Forall (λ e, e = None) (flush_callbacks st) ∧
  _closed (_inputs st) = true ∧
  inputs_returned st = true ∧
  driver st = Finished ∧
  pushed st = yielded st.
Proof.
  cbn zeta. intros Hf.
  destruct (run_consistent evs new_stream consistent_new)
    as [Hheap _ _ _ _ _ _ Hflushed Hyield].
  destruct (Hflushed Hf) as (? & ? & ? & Hd). do 4 (split; [done|]).
  rewrite Hyield, Hd; cbn. by rewrite app_nil_r.
Qed.

End Completion.

Section CompletionExample.
Import Streams.

Lemma flush_completes_last_witness :
  let st := run Scenario.two_items (new_stream (T := identity nat)) in
  flush_callbacks st ≠ [] ∧ driver st = Finished ∧ pushed st = [1; 2].
Proof.
  split; [by vm_compute|].
  destruct (flush_completes_last (T := identity nat) Scenario.two_items)
    as (_ & _ & _ & Hd & Hp); [by vm_compute|].
  split; [exact Hd|by vm_compute].
Defined.

End CompletionExample.
(** *** The identity transform *)

Section Identity.
Import Streams.
Context {V : Type}.

Implicit Types (st : AsyncTransformStream (identity V)).
Implicit Types (evs : list (Event V)) (sent : list (IteratorResult V)).



Lemma flow_new : flow [] (new_stream (T := identity V)).
Proof. by split. Qed.

Lemma flow_advance sent st st' :
  consistent st → flow sent st → advance st = Some st' → flow sent st'.
Proof.
  intros [Hheap Hinit Hawait Hblocked Hbacklog _ _ _ _] [Hsent Hheld Hshape].
  unfold advance, consumed, inflight, shape in *.
  destruct st as [h [b bl c] r i d t ps es tc fc pl ys]; cbn in *.
  destruct d as [|g|d g|o g| |e| |]; try done.
  - destruct g as [|v|]; cbn in *; subst r.
    + unfold shift, alloc. destruct bl as [|[v d] rest]; cbn.
      * intros [= <-]. split; unfold consumed, inflight, shape; cbn; [|done..].
        by rewrite lookup_app_r, Nat.sub_diag.
      * destruct v as [v|]; intros [= <-];
          (split; unfold consumed, inflight, shape; cbn; [|try done..]).
        -- rewrite <- Hsent, fmap_app. cbn. by rewrite !app_nil_r, <- app_assoc.
        -- rewrite Hheld; cbn. by rewrite app_nil_r.
        -- by rewrite <- Hsent, !app_nil_r, <- app_assoc.
    + intros [= <-]. by split.
    + intros [= <-]. by split.
  - destruct Hshape as [-> ->]. cbn.
    destruct (h !! d) as [[|[|value]|]|] eqn:Hd; try done.
    destruct (Hawait d Waiting eq_refl) as [[_ ?]|[-> _]]; [congruence|].
    destruct value as [v|]; intros [= <-];
      (split; unfold consumed, inflight, shape; cbn; [|try done..]).
    + rewrite <- Hsent, fmap_app. cbn. by rewrite !app_nil_r, <- !app_assoc.
    + rewrite Hheld; cbn. by rewrite app_nil_r.
    + by rewrite <- Hsent, !app_nil_r, <- !app_assoc.
  - destruct Hshape as [-> ->]. intros [= <-].
    split; unfold consumed, inflight, shape; cbn; [done| |done].
    rewrite Hheld; cbn. by rewrite app_nil_r.
  - intros [= <-]. by split.
Qed.


Lemma flow_initializeOnce sent st :
  consistent st → flow sent st → flow sent (_initializeOnce st).
Proof.
  intros Hc Hf. unfold _initializeOnce.
  destruct (_initialized st) eqn:Hi; [done|].
  pose proof (start_consistent st Hc Hi) as Hc1.
  assert (flow sent (set_driver (Running _transformIter) (set_initialized st)))
    as Hf1.
  { destruct Hc as [_ Hinit _ _ _ _ _ _ _]. specialize (Hinit Hi).
    destruct Hf as [Hsent Hheld Hshape].
    unfold consumed, inflight, shape in *.
    destruct st as [h [b bl c] r i d t ps es tc fc pl ys]; cbn in *. subst d.
    destruct Hshape. by split. }
  destruct (advance _) as [st'|] eqn:Hadv; cbn; [|done].
  by eapply flow_advance.
Qed.

Lemma inflight_extend st h' w' t' :
  consistent st →
  (∀ d s, heap st !! d = Some s → h' !! d = Some s) →
  inflight (set_tasks t' (set_io h' w' st)) = inflight st.
Proof.
  intros [_ _ Hawait _ _ _ _ _ _] Hh. unfold inflight.
  destruct st as [h [b bl c] r i d t ps es tc fc pl ys]; cbn in *.
  destruct d as [|g|d g|o g| |e| |]; try done.
  destruct (Hawait d g eq_refl) as [[_ Hd]|[_ [x Hd]]];
    by rewrite Hd, (Hh _ _ Hd).
Qed.

Lemma flow_write sent st v p h w :
  consistent st → flow sent st →
  write v (heap st) (_inputs st) = (p, h, w) →
  flow (sent ++ if _closed (_inputs st) then [] else [IterValue v])
    (set_tasks (tasks st ++ [TransformCallback p]) (set_io h w st)).
Proof.
  intros Hc [Hsent Hheld Hshape] Hw.
  pose proof (inflight_extend st h w (tasks st ++ [TransformCallback p]) Hc)
    as Hin.
  destruct Hc as [Hheap Hinit Hawait Hblocked Hbacklog _ _ _ _].
  unfold consumed, shape in *.
  destruct st as [h0 [b bl c] r i d t ps es tc fc pl ys]; cbn in *.
  unfold write, _write, alloc in Hw; cbn in Hw.
  destruct c.
  { injection Hw as <- <- <-. split; unfold consumed, shape; cbn; [|done..].
    rewrite Hin, app_nil_r; [done|]. intros. by apply lookup_app_l_Some. }
  destruct b as [d0|]; injection Hw as <- <- <-.
  - clear Hin. destruct (Hblocked d0 eq_refl) as ([g ->] & -> & Hd0).
    destruct (Hawait d0 g eq_refl) as [[_ Hpend]|[? _]]; [|done].
    unfold inflight in *; cbn in *. rewrite Hpend in Hsent.
    split; unfold consumed, inflight, shape; cbn; [|done..].
    rewrite !lookup_app_l by (rewrite ?length_app, resolve_length; lia).
    rewrite (resolve_lookup_pending _ _ _ Hpend), <- Hsent. cbn.
    by rewrite !app_nil_r.
  - split; unfold consumed, shape; cbn; [|done..].
    rewrite Hin by (intros; by do 2 apply lookup_app_l_Some).
    rewrite <- Hsent, fmap_app. cbn. by rewrite <- !app_assoc.
Qed.

Lemma flow_flush sent st :
  consistent st → flow sent st → flow (sent ++ [IterDone]) (_flush st).
Proof.
  intros Hc [Hsent Hheld Hshape]. unfold _flush.
  destruct (close _ _) as [[p h] w] eqn:Hw.
  pose proof (inflight_extend st h w (tasks st ++ [FlushAwaitClose p]) Hc)
    as Hin.
  destruct Hc as [Hheap Hinit Hawait Hblocked Hbacklog _ _ _ _].
  unfold consumed, shape in *.
  destruct st as [h0 [b bl c] r i d t ps es tc fc pl ys]; cbn in *.
  unfold close, _write, alloc in Hw; cbn in Hw.
  destruct b as [d0|]; injection Hw as <- <- <-.
  - clear Hin. destruct (Hblocked d0 eq_refl) as ([g ->] & -> & Hd0).
    destruct (Hawait d0 g eq_refl) as [[_ Hpend]|[? _]]; [|done].
    unfold inflight in *; cbn in *. rewrite Hpend in Hsent.
    split; unfold consumed, inflight, shape; cbn; [|done..].
    rewrite !lookup_app_l by (rewrite ?length_app, resolve_length; lia).
    rewrite (resolve_lookup_pending _ _ _ Hpend), <- Hsent. cbn.
    by rewrite !app_nil_r.
  - split; unfold consumed, shape; cbn; [|done..].
    rewrite Hin by (intros; by apply lookup_app_l_Some).
    rewrite <- Hsent, fmap_app. cbn. by rewrite <- !app_assoc.
Qed.

Lemma flow_settle sent i st st' :
  flow sent st → settle i st = Some st' → flow sent st'.
Proof.
  intros [Hsent Hheld Hshape]. unfold settle, consumed, inflight, shape in *.
  destruct st as [h0 [b bl c] r i0 d t ps es tc fc pl ys]; cbn in *.
  destruct (t !! i) as [[p|p|]|]; [| | |done].
  - destruct (h0 !! p) as [[|x|e]|]; try done; intros [= <-]; by split.
  - destruct (h0 !! p) as [[|x|e]|]; try done; intros [= <-]; by split.
  - destruct (h0 !! _writingFinished) as [[|x|e]|]; try done;
      intros [= <-]; by split.
Qed.

Lemma closed_advance st st' :
  advance st = Some st' → _closed (_inputs st') = _closed (_inputs st).
Proof.
  unfold advance.
  destruct st as [h [b bl c] r i d t ps es tc fc pl ys]; cbn.
  destruct d as [|g|d g|o g| |e| |]; try done; try (by intros [= <-]).
  - destruct g as [|v|]; cbn; try (by intros [= <-]).
    destruct r; [by intros [= <-]|]. unfold shift, alloc.
    destruct bl as [|[[v|] d] rest]; cbn; by intros [= <-].
  - destruct (h !! d) as [[|[|[v|]]|]|]; try done;
      destruct g as [|v'|]; cbn; try done; by intros [= <-].
Qed.

Lemma closed_initializeOnce st :
  _closed (_inputs (_initializeOnce st)) = _closed (_inputs st).
Proof.
  unfold _initializeOnce. destruct (_initialized st); [done|].
  destruct (advance _) as [st'|] eqn:Hadv; cbn.
  - rewrite (closed_advance _ _ Hadv). by destruct st.
  - by destruct st.
Qed.

Lemma closed_step ev st :
  _closed (_inputs (step ev st))
  = match ev with Flush => true | _ => _closed (_inputs st) end.
Proof.
  destruct ev as [v| | |i]; cbn [step].
  - unfold _transform. rewrite <- (closed_initializeOnce st).
    destruct (_initializeOnce st) as [h [b bl c] r i d t ps es tc fc pl ys].
    unfold write, _write, alloc; cbn. by destruct c, b.
  - unfold _flush, close, _write, alloc.
    destruct st as [h [b bl c] r i d t ps es tc fc pl ys]; cbn.
    by destruct b.
  - destruct (advance st) as [st'|] eqn:Hadv; cbn; [|done].
    by apply closed_advance.
  - unfold settle.
    destruct st as [h [b bl c] r i0 d t ps es tc fc pl ys]; cbn.
    destruct (t !! i) as [[p|p|]|]; [| | |done].
    + by destruct (h !! p) as [[|x|e]|].
    + by destruct (h !! p) as [[|x|e]|].
    + by destruct (h !! _writingFinished) as [[|x|e]|].
Qed.

Lemma flow_step ev sent st :
  consistent st → flow sent st →
  flow (sent ++ offered (_closed (_inputs st)) [ev]) (step ev st).
Proof.
  intros Hc Hf. destruct ev as [v| | |i]; cbn [step offered].
  - unfold _transform.
    apply _initializeOnce_consistent in Hc as Hc'.
    apply (flow_initializeOnce _ _ Hc) in Hf.
    destruct (write v _ _) as [[p h] w] eqn:Hw.
    rewrite app_nil_r, <- (closed_initializeOnce st).
    by eapply flow_write.
  - by apply flow_flush.
  - rewrite app_nil_r. destruct (advance st) as [st'|] eqn:Hadv; cbn; [|done].
    by eapply flow_advance.
  - rewrite app_nil_r. destruct (settle i st) as [st'|] eqn:Hs; cbn; [|done].
    by eapply flow_settle.
Qed.

Lemma offered_cons closed ev evs :
  offered closed (ev :: evs)
  = offered closed [ev]
    ++ offered (match ev with Flush => true | _ => closed end) evs.
Proof. destruct ev; cbn; by rewrite ?app_nil_r. Qed.

Lemma flow_run evs sent st :
  consistent st → flow sent st →
  flow (sent ++ offered (_closed (_inputs st)) evs) (run evs st).
Proof.
  revert sent st. induction evs as [|ev evs IH]; intros sent st Hc Hf.
  { cbn. by rewrite app_nil_r. }
  rewrite offered_cons, app_assoc, <- closed_step. cbn [run].
  apply IH; [by apply step_consistent|by apply flow_step].
Qed.

Lemma offered_calls closed evs : offered closed (calls evs) = offered closed evs.
Proof.
  revert closed. induction evs as [|[v| | |i] evs IH]; intros closed; cbn;
    by rewrite ?IH.
Qed.

Lemma offered_writes_then_flush (vs : list V) :
  offered false ((Transform <$> vs) ++ [Flush]) = (IterValue <$> vs) ++ [IterDone].
Proof. induction vs as [|v vs IH]; cbn; by rewrite ?IH. Qed.

Lemma values_prefix (a b : list V) (x : list (IteratorResult V)) :
  (IterValue <$> a) ++ x = (IterValue <$> b) ++ [IterDone] →
  a `prefix_of` b ∧ (∀ y, x = IterDone :: y → a = b).
Proof.
  revert b. induction a as [|v a IH]; intros b; cbn.
  - intros ->. split; [apply prefix_nil|].
    intros y. destruct b; cbn; [done|]. by intros [=].
  - destruct b as [|v' b]; cbn.
    + by intros [= ? Hnil].
    + intros [= <- Heq]. destruct (IH b Heq) as [Hp Hd]. split.
      * by apply prefix_cons.
      * intros y Hy. f_equal. by eapply Hd.
Qed.



Lemma values_not_done (a b : list V) :
  IterValue <$> a ≠ (IterValue <$> b) ++ [IterDone].
Proof.
  revert b. induction a as [|v a IH]; intros [|v' b]; cbn; try done.
  intros [= _ Heq]. by eapply IH.
Qed.

(** Once the done marker has been sent, the transform moves on until it
    has finished. *)
Lemma progress (vs : list V) st :
  consistent st → flow ((IterValue <$> vs) ++ [IterDone]) st →
  driver st ≠ NotStarted → driver st ≠ Finished →
  ∃ st', advance st = Some st' ∧ remaining st' < remaining st ∧
    driver st' ≠ NotStarted.
Proof.
  intros [_ _ Hawait Hblocked _ _ _ _ _] [Hsent Hheld Hshape].
  unfold advance, remaining, consumed, inflight, shape in *.
  destruct st as [h [b bl c] r i d t ps es tc fc pl ys]; cbn in *.
  destruct d as [|g|d g|o g| |e| |]; try done; intros _ _.
  - destruct g as [|v|]; cbn in *; subst r.
    + unfold shift, alloc. destruct bl as [|[v d] rest]; cbn in *.
      { rewrite !app_nil_r in Hsent. by apply values_not_done in Hsent. }
      destruct v as [v|]; eexists; (split; [done|]); cbn; split; (lia || done).
    + eexists; split; [done|]; cbn; split; (lia || done).
    + eexists; split; [done|]; cbn; split; (lia || done).
  - destruct Hshape as [-> ->]. cbn.
    destruct (Hawait d Waiting eq_refl) as [[Hb Hd]|[-> [value Hd]]].
    + destruct (Hblocked d Hb) as (_ & -> & _). rewrite Hd in Hsent. cbn in Hsent.
      rewrite !app_nil_r in Hsent. by apply values_not_done in Hsent.
    + rewrite Hd. destruct value as [v|]; eexists; (split; [done|]); cbn;
        rewrite ?Hd; cbn; split; (lia || done).
  - destruct Hshape as [-> ->].
    eexists; split; [done|]; cbn; split; (lia || done).
  - eexists; split; [done|]; cbn; split; (lia || done).
Qed.

Lemma finished_or_not st : driver st = Finished ∨ driver st ≠ Finished.
Proof. destruct (driver st); (by left) || (by right). Qed.

Lemma drain (vs : list V) n st :
  consistent st → flow ((IterValue <$> vs) ++ [IterDone]) st →
  driver st ≠ NotStarted → remaining st ≤ n →
  driver (run (replicate n Advance) st) = Finished.
Proof.
  revert st. induction n as [|n IH]; intros st Hc Hf Hstarted Hn.
  - destruct (finished_or_not st) as [|Hd]; [done|].
    destruct (progress vs st Hc Hf Hstarted Hd) as (? & _ & ? & _). lia.
  - cbn [replicate run step].
    destruct (finished_or_not st) as [Hfin|Hd].
    + assert (advance st = None) as ->.
      { unfold advance. by rewrite Hfin. }
      cbn [from_option id]. apply IH; [done..|].
      unfold remaining. rewrite Hfin. lia.
    + destruct (progress vs st Hc Hf Hstarted Hd) as (st' & Hadv & ? & ?).
      rewrite Hadv. cbn [from_option id]. apply IH; [| |done|lia].
      * by eapply advance_consistent.
      * by eapply flow_advance.
Qed.

Lemma calls_advance evs n : calls (evs ++ replicate n Advance) = calls evs.
Proof.
  induction evs as [|[v| | |i] evs IH]; cbn; rewrite ?IH; try done.
  induction n as [|n IHn]; cbn; done.
Qed.



Lemma advance_started st st' :
  advance st = Some st' → driver st' ≠ NotStarted.
Proof.
  unfold advance.
  destruct st as [h [b bl c] r i d t ps es tc fc pl ys]; cbn.
  destruct d as [|g|d g|o g| |e| |]; try done; try (by intros [= <-]).
  - destruct g as [|v|]; cbn; try (by intros [= <-]).
    destruct r; [by intros [= <-]|]. unfold shift, alloc.
    destruct bl as [|[[v|] d] rest]; cbn; by intros [= <-].
  - destruct (h !! d) as [[|[|[v|]]|]|]; try done;
      destruct g as [|v'|]; cbn; try done; by intros [= <-].
Qed.

Lemma driver_set_io st (h : Heap V) w t' :
  driver (set_tasks t' (set_io h w st)) = driver st.
Proof. by destruct st. Qed.

Lemma _transform_started sent st v :
  flow sent st → driver (_transform v st) ≠ NotStarted.
Proof.
  intros [_ _ Hshape]. unfold _transform.
  destruct (write v _ _) as [[p h] w]. rewrite driver_set_io.
  unfold _initializeOnce, shape in *.
  destruct (_initialized st) eqn:Hi.
  - destruct (driver st); try done. by destruct Hshape.
  - destruct (advance _) as [st'|] eqn:Hadv; cbn.
    + by eapply advance_started.
    + by destruct st.
Qed.

Lemma step_started ev st :
  driver st ≠ NotStarted → driver (step ev st) ≠ NotStarted.
Proof.
  intros Hd. destruct ev as [v| | |i]; cbn [step].
  - unfold _transform. destruct (write v _ _) as [[p h] w].
    rewrite driver_set_io. unfold _initializeOnce.
    destruct (_initialized st); [done|].
    destruct (advance _) as [st'|] eqn:Hadv; cbn.
    + by eapply advance_started.
    + by destruct st.
  - unfold _flush. destruct (close _ _) as [[p h] w]. by destruct st.
  - destruct (advance st) as [st'|] eqn:Hadv; cbn; [|done].
    by eapply advance_started.
  - unfold settle.
    destruct st as [h [b bl c] r i0 d t ps es tc fc pl ys]; cbn in *.
    destruct (t !! i) as [[p|p|]|]; [| | |done].
    + by destruct (h !! p) as [[|x|e]|].
    + by destruct (h !! p) as [[|x|e]|].
    + by destruct (h !! _writingFinished) as [[|x|e]|].
Qed.

Lemma run_started evs sent st :
  consistent st → flow sent st →
  has_transform evs = true ∨ driver st ≠ NotStarted →
  driver (run evs st) ≠ NotStarted.
Proof.
  revert sent st. induction evs as [|ev evs IH]; intros sent st Hc Hf Hs.
  { by destruct Hs. }
  cbn [run].
  assert (has_transform evs = true ∨ driver (step ev st) ≠ NotStarted) as Hs'.
  { destruct ev as [v| | |i]; cbn [has_transform] in Hs.
    - right. by eapply _transform_started.
    - destruct Hs as [?|?]; [by left|right; by apply step_started].
    - destruct Hs as [?|?]; [by left|right; by apply step_started].
    - destruct Hs as [?|?]; [by left|right; by apply step_started]. }
  eapply IH; [by apply step_consistent|by apply flow_step|done].
Qed.

Lemma has_transform_calls evs : has_transform (calls evs) = has_transform evs.
Proof. induction evs as [|[v| | |i] evs IH]; cbn; by rewrite ?IH. Qed.

(** C2.  [N] items written through an adapter whose transform is the
    identity, then [_flush], under any schedule: what has been pushed is
    at every moment a prefix of the items, in their order; the transform
    is handed the done marker only when it has pulled all [N] items; and
    when the transform is left to run, everything is pushed, in order,
    and (when there was an item) the transform finishes. *)
Theorem identity_preserves_order (vs : list V) evs :
  calls evs = (Transform <$> vs) ++ [Flush] →
  let st := run evs (new_stream (T := identity V)) in
  pushed st `prefix_of` vs ∧
  pulled st `prefix_of` vs ∧
  (inputs_returned st = true → pulled st = vs) ∧
  ∃ n, ∀ m, n ≤ m →
    let st' := run (replicate m Advance) st in
    pushed st' = vs ∧ pulled st' = vs ∧
    (vs ≠ [] → inputs_returned st' = true ∧ driver st' = Finished).
Proof.
  intros Hcalls. cbn zeta.
  assert (∀ evs', calls evs' = (Transform <$> vs) ++ [Flush] →
            let st := run evs' (new_stream (T := identity V)) in
            consistent st ∧ flow ((IterValue <$> vs) ++ [IterDone]) st ∧
            pushed st `prefix_of` vs ∧ pulled st `prefix_of` vs ∧
            (inputs_returned st = true → pulled st = vs ∧ pushed st ++ holding (driver st) = vs))
    as Hsafe.
  { intros evs' Hc'. cbn zeta.
    pose proof (run_consistent evs' _ (consistent_new (T := identity V))) as Hc.
    pose proof (flow_run evs' [] _ consistent_new flow_new) as Hf.
    cbn in Hf. rewrite <- offered_calls, Hc', offered_writes_then_flush in Hf.
    do 2 (split; [done|]). destruct Hf as [Hsent Hheld Hshape].
    unfold consumed in Hsent. rewrite <- app_assoc in Hsent.
    destruct (values_prefix _ _ _ Hsent) as [Hpre Hdone].
    split; [|split; [done|]].
    - etrans; [|exact Hpre]. rewrite Hheld. by apply prefix_app_r.
    - intros Hr. rewrite Hr in Hdone. cbn in Hdone.
      rewrite <- Hheld. split; by eapply Hdone. }
  destruct (Hsafe evs Hcalls) as (Hc & Hf & Hpushed & Hpulled & Hdone).
  do 2 (split; [done|]). split; [intros Hr; by destruct (Hdone Hr)|].
  exists (remaining (run evs new_stream)). intros m Hm. cbn zeta.
  rewrite <- run_app.
  destruct (Hsafe (evs ++ replicate m Advance))
    as (Hc' & Hf' & Hpushed' & Hpulled' & Hdone').
  { by rewrite calls_advance. }
  destruct vs as [|v vs].
  - apply prefix_nil_inv in Hpushed', Hpulled'. by rewrite Hpushed', Hpulled'.
  - assert (driver (run (evs ++ replicate m Advance) new_stream) = Finished)
      as Hfin.
    { rewrite run_app. apply (drain (v :: vs)); [done..| |done].
      eapply run_started; [apply consistent_new|apply flow_new|].
      left. by rewrite <- has_transform_calls, Hcalls. }
    destruct Hf' as [_ _ Hshape]. unfold shape in Hshape.
    rewrite Hfin in Hshape. destruct (Hdone' Hshape) as [-> Hp].
    rewrite Hfin in Hp. cbn in Hp. rewrite app_nil_r in Hp. by rewrite Hp.
Qed.

End Identity.

Section IdentityExample.
Import Streams.

Lemma identity_preserves_order_witness :
  calls Scenario.two_items = (Transform <$> [1; 2]) ++ [Flush] ∧
  pushed (run Scenario.two_items (new_stream (T := identity nat)))
    `prefix_of` [1; 2].
Proof.
  split; [reflexivity|].
  apply (identity_preserves_order [1; 2] Scenario.two_items). reflexivity.
Defined.

End IdentityExample.

(** *** Backpressure *)

Section Backpressure.
Import Streams.

(** Whatever the state of the iterable, the promise [write] returns is
    settled when [write] returns: it never waits for the item to be
    taken. *)
Lemma write_settles_at_once {V} (v : V) (h : Heap V) w :
  ∃ p h' w', write v h w = (p, h', w') ∧ h' !! p ≠ Some Pending.
Proof.
  unfold write, _write, alloc.
  destruct (_closed w); [|destruct (blockedOn w)]; cbn; eexists _, _, _;
    (split; [done|]); by rewrite lookup_app_r, Nat.sub_diag.
Qed.

(** C1, at two items.  The first [_transform] finds the consumer blocked
    and hands item 1 over; the consumer wakes up with it; the callback of
    the first call is called.  The second [_transform] finds the consumer
    busy: item 2 is queued and its deferred is pending.  Yet the promise
    of the second [write] is fulfilled, and the callback of the second
    [_transform] is called while item 2 is still in the backlog and has
    not been pulled. *)
Theorem write_settles_while_item_is_queued :
  let st := run [Transform 1; Advance; Settle 0; Transform 2]
              (new_stream (T := identity nat)) in
  backlog (_inputs st) = [(IterValue 2, 4)] ∧
  heap st !! 4 = Some Pending ∧
  pulled st = [1] ∧
  tasks st = [TransformCallback 5] ∧
  heap st !! 5 = Some (Fulfilled Undefined) ∧
  let st' := run [Settle 0] st in
  transform_callbacks st' = [None; None] ∧
  backlog (_inputs st') = [(IterValue 2, 4)] ∧
  heap st' !! 4 = Some Pending ∧
  pulled st' = [1].
Proof. by vm_compute. Qed.

(** On the adapter, a [_transform] after [_flush] has its callback called
    with the error of the closed iterable, and sends nothing. *)
Example transform_after_flush :
  let st := run [Transform 1; Flush; Transform 2; Settle 2]
              (new_stream (T := identity nat)) in
  transform_callbacks st = [Some closed_message] ∧
  backlog (_inputs st) = [(IterDone, 4)].
Proof. by vm_compute. Qed.

End Backpressure.

(** *** [Promise.all] *)

Section PromiseAll.
Import Build.

Lemma earliest_None rs : earliest rs = None ↔ rs = [].
Proof.
  destruct rs as [|[t e] rest]; simpl; [done|].
  split; [|done]. destruct (earliest rest) as [[t' e']|]; [case_decide|]; done.
Qed.

Lemma earliest_Some rs t e :
  earliest rs = Some (t, e) →
  (t, e) ∈ rs ∧ ∀ t' e', (t', e') ∈ rs → t ≤ t'.
Proof.
  revert t e. induction rs as [|[t0 e0] rest IH]; intros t e; simpl; [done|].
  destruct (earliest rest) as [[t1 e1]|] eqn:Hrest.
  - destruct (IH t1 e1 eq_refl) as [Hin Hmin]. case_decide; intros [= <- <-].
    + split; [by right|].
      intros t' e' [[= -> ->]|Hin']%elem_of_cons; [lia|eauto].
    + split; [by left|]. intros t' e' [[= -> ->]|Hin']%elem_of_cons; [lia|].
      specialize (Hmin _ _ Hin'). lia.
  - apply earliest_None in Hrest as ->. intros [= <- <-].
    split; [by left|].
    by intros t' e' [[= -> ->]|?%elem_of_nil]%elem_of_cons.
Qed.

Lemma elem_of_rejections (ps : list Promise) (t : nat) e :
  (t, e) ∈ omap rejection ps ↔ Some (t, Rejects e) ∈ ps.
Proof.
  rewrite list_elem_of_omap. split.
  - intros ([[t' [v|e']]|] & Hin & Heq); simplify_eq/=. done.
  - intros Hin. by exists (Some (t, Rejects e)).
Qed.

Lemma Promise_all_rejects (ps : list Promise) t e :
  Promise_all ps = Some (t, Rejects e) ↔
  earliest (omap rejection ps) = Some (t, e).
Proof.
  unfold Promise_all. destruct (earliest _) as [[t' e']|]; [naive_solver|].
  destruct (mapM _ _); naive_solver.
Qed.

(** [Promise.all] rejects with one of the rejections of its inputs, and no
    input rejects in an earlier turn. *)
Lemma Promise_all_first_rejection (ps : list Promise) t e :
  Promise_all ps = Some (t, Rejects e) →
  Some (t, Rejects e) ∈ ps ∧ ∀ t' e', Some (t', Rejects e') ∈ ps → t ≤ t'.
Proof.
  intros [Hin Hmin]%Promise_all_rejects%earliest_Some. split.
  - by apply elem_of_rejections.
  - intros t' e' Hin'. by apply (Hmin t' e'), elem_of_rejections.
Qed.

Lemma Promise_all_rejected (ps : list Promise) :
  rejected (Promise_all ps) ↔ ∃ p, p ∈ ps ∧ rejected p.
Proof.
  split.
  - intros (t & e & [Hin _]%Promise_all_first_rejection).
    exists (Some (t, Rejects e)). split; [done|]. by exists t, e.
  - intros (p & Hin & t & e & ->). apply elem_of_rejections in Hin.
    destruct (earliest (omap rejection ps)) as [[t' e']|] eqn:He.
    + exists t', e'. by apply Promise_all_rejects.
    + apply earliest_None in He. rewrite He in Hin. by apply elem_of_nil in Hin.
Qed.

Lemma Promise_all_pair_resolves (p q : Promise) t v :
  Promise_all [p; q] = Some (t, Resolves v) ↔
  ∃ t1 v1 t2 v2, p = Some (t1, Resolves v1) ∧ q = Some (t2, Resolves v2) ∧
    t = t1 `max` t2 ∧ v = VArray [v1; v2].
Proof.
  unfold Promise_all.
  destruct p as [[t1 [v1|e1]]|], q as [[t2 [v2|e2]]|]; simpl;
    repeat case_decide; try naive_solver.
  rewrite Nat.max_0_r. naive_solver.
Qed.


Lemma Promise_all_pair_rejected (p q : Promise) :
  rejected (Promise_all [p; q]) ↔ rejected p ∨ rejected q.
Proof.
  rewrite Promise_all_rejected. split.
  - intros (x & Hin & Hx). set_solver.
  - intros [H|H]; eexists; (split; [|exact H]); set_solver.
Qed.

Lemma then_fulfilled (p : Promise) f :
  fulfilled (then_ p f) ↔ ∃ t v, p = Some (t, Resolves v) ∧ fulfilled (f v t).
Proof.
  destruct p as [[t [v|e]]|]; simpl.
  - naive_solver.
  - split; [by intros (? & ? & ?)|naive_solver].
  - split; [by intros (? & ? & ?)|naive_solver].
Qed.

Lemma then_rejected (p : Promise) f :
  rejected (then_ p f) ↔
  rejected p ∨ ∃ t v, p = Some (t, Resolves v) ∧ rejected (f v t).
Proof.
  destruct p as [[t [v|e]]|]; simpl.
  - split; [naive_solver|]. intros [(? & ? & ?)|?]; naive_solver.
  - split; [by left|]. intros _. by exists t, e.
  - split; [by intros (? & ? & ?)|]. intros [(? & ? & ?)|?]; naive_solver.
Qed.

Lemma fulfilled_not_rejected (p : Promise) : fulfilled p → rejected p → False.
Proof. intros (? & ? & ->) (? & ? & ?). done. Qed.

End PromiseAll.

(** *** The build orchestration *)

Section BuildFacts.
Import Build.

Implicit Types (E : Collaborators) (options : value) (config : ProjectConfig).
Implicit Types (r : BuildRun) (p : Promise).

Lemma config_eta config :
  {| root := root config; entrypoint := entrypoint config;
     shell := shell config; fragments := fragments config;
     sourceGlobs := sourceGlobs config;
     includeDependencies := includeDependencies config |} = config.
Proof. by destruct config. Qed.

(** What [build] returns when [options.js.compile] can be read. *)
Lemma build_inr E options config r :
  build E options config = inr r →
  ∃ js compile,
    get options "js" = inr js ∧ get js "compile" = inr compile ∧
    unbundledPhase r =
      [forkStream (buildStream r);
       gulpif (prop options "insertDependencyLinks") (PrefetchTransform config);
       dest "build/unbundled"] ∧
    bundledPhase r = [forkStream (buildStream r); bundler; dest "build/bundled"] ∧
    loadSWConfig r = parsePreCacheConfig E (swPrecacheConfig r) ∧
    unbundledPostProcessing r =
      (postProcessing E (loadSWConfig r) (unbundledPhase r) "build/unbundled"
         config false).1 ∧
    bundledPostProcessing r =
      (postProcessing E (loadSWConfig r) (bundledPhase r) "build/bundled"
         config true).1 ∧
    completion r =
      then_ (Promise_all [unbundledPostProcessing r; bundledPostProcessing r])
        (λ _ t, Some (t, Resolves VUndefined)) ∧
    external_calls r =
      CallParsePreCacheConfig (swPrecacheConfig r)
        :: (postProcessing E (loadSWConfig r) (unbundledPhase r)
              "build/unbundled" config false).2
        ++ (postProcessing E (loadSWConfig r) (bundledPhase r)
              "build/bundled" config true).2.
Proof.
  unfold build. destruct (get options "js") as [e|js] eqn:Hjs; [done|].
  destruct (get js "compile") as [e|compile] eqn:Hcompile; [done|].
  rewrite config_eta. intros [= <-]. exists js, compile.
  do 2 (split; [done|]). repeat split.
  unfold with_calls; cbn. by rewrite app_nil_r.
Qed.

Lemma postProcessing_fst E load phase folder config is_bundled :
  (postProcessing E load phase folder config is_bundled).1
  = then_ (Promise_all [load; waitFor (emission E phase)])
      (λ results t,
         addServiceWorker_at E
           {| buildRoot := folder; project := config;
              swConfig := index results 0; bundled := is_bundled |} t).
Proof.
  unfold postProcessing. by destruct (Promise_all _) as [[t [v|e]]|].
Qed.

Lemma postProcessing_snd E load phase folder config is_bundled :
  (postProcessing E load phase folder config is_bundled).2
  = match Promise_all [load; waitFor (emission E phase)] with
    | Some (t, Resolves results) =>
        [CallAddServiceWorker t
           {| buildRoot := folder; project := config;
              swConfig := index results 0; bundled := is_bundled |}]
    | _ => []
    end.
Proof.
  unfold postProcessing. by destruct (Promise_all _) as [[t [v|e]]|].
Qed.

(** The post-processing of a phase, in terms of its three inputs. *)
Lemma postProcessing_fulfilled E load phase folder config is_bundled :
  fulfilled (postProcessing E load phase folder config is_bundled).1 ↔
  ∃ t cfg, load = Some (t, Resolves cfg) ∧
    fulfilled (waitFor (emission E phase)) ∧
    ∃ dt v, addServiceWorker E (worker_options config folder is_bundled cfg)
            = Some (dt, Resolves v).
Proof.
  rewrite postProcessing_fst. rewrite then_fulfilled. split.
  - intros (t & results & Hall & Hsw).
    apply Promise_all_pair_resolves in Hall
      as (t1 & cfg & t2 & v2 & -> & Hw & -> & ->).
    exists t1, cfg. split; [done|]. split; [by rewrite Hw; eexists _, _|].
    destruct Hsw as (t' & v & Hsw). unfold addServiceWorker_at in Hsw.
    cbn in Hsw. unfold worker_options.
    destruct (addServiceWorker E _) as [[dt [v'|e]]|]; simplify_eq. eauto.
  - intros (t & cfg & -> & (t2 & v2 & Hw) & dt & v & Hsw).
    eexists _, _. split.
    + apply Promise_all_pair_resolves. by eexists _, _, _, _.
    + unfold addServiceWorker_at. cbn. unfold worker_options in Hsw.
      rewrite Hsw. by eexists _, _.
Qed.

Lemma postProcessing_rejected E load phase folder config is_bundled :
  rejected (postProcessing E load phase folder config is_bundled).1 ↔
  rejected load ∨ rejected (waitFor (emission E phase)) ∨
  ∃ t cfg, load = Some (t, Resolves cfg) ∧
    fulfilled (waitFor (emission E phase)) ∧
    ∃ dt e, addServiceWorker E (worker_options config folder is_bundled cfg)
            = Some (dt, Rejects e).
Proof.
  rewrite postProcessing_fst.
  rewrite then_rejected, Promise_all_pair_rejected. split.
  - intros [[?|?]|(t & results & Hall & Hsw)]; [by left|by right; left|].
    right; right.
    apply Promise_all_pair_resolves in Hall
      as (t1 & cfg & t2 & v2 & -> & Hw & -> & ->).
    exists t1, cfg. split; [done|]. split; [by rewrite Hw; eexists _, _|].
    destruct Hsw as (t' & e & Hsw). unfold addServiceWorker_at in Hsw.
    cbn in Hsw. unfold worker_options.
    destruct (addServiceWorker E _) as [[dt [v'|e']]|]; simplify_eq. eauto.
  - intros [?|[?|(t & cfg & -> & (t2 & v2 & Hw) & dt & e & Hsw)]];
      [by left; left|by left; right|].
    right. eexists _, _. split.
    + apply Promise_all_pair_resolves. by eexists _, _, _, _.
    + unfold addServiceWorker_at. cbn. unfold worker_options in Hsw.
      rewrite Hsw. by eexists _, _.
Qed.

(** [addServiceWorker] is called for a phase only with the value the one
    configuration promise was fulfilled with. *)
Lemma postProcessing_calls E load phase folder config is_bundled c :
  c ∈ (postProcessing E load phase folder config is_bundled).2 →
  ∃ t t0 cfg, c = CallAddServiceWorker t
                    (worker_options config folder is_bundled cfg) ∧
    load = Some (t0, Resolves cfg) ∧ t0 ≤ t.
Proof.
  rewrite postProcessing_snd.
  destruct (Promise_all _) as [[t [results|e]]|] eqn:Hall;
    [|by intros ?%elem_of_nil..].
  apply Promise_all_pair_resolves in Hall
    as (t1 & cfg & t2 & v2 & -> & Hw & -> & ->).
  intros ->%list_elem_of_singleton. exists (t1 `max` t2), t1, cfg.
  split; [done|]. split; [done|lia].
Qed.

Lemma postProcessing_no_load E load phase folder config is_bundled :
  filter is_load (postProcessing E load phase folder config is_bundled).2 = [].
Proof.
  rewrite postProcessing_snd.
  by destruct (Promise_all _) as [[t [results|e]]|].
Qed.

Lemma waitFor_skips_data (pre rest : Emission) :
  Forall (λ x, x.2 = data) pre → waitFor (pre ++ rest) = waitFor rest.
Proof.
  induction 1 as [|[t ev] pre Hev _ IH]; cbn in *; [done|]. by subst ev.
Qed.

(** [waitFor], told from the events of the stream. *)
Lemma waitFor_resolves (stream : Emission) t v :
  waitFor stream = Some (t, Resolves v) ↔ ends_at stream t ∧ v = VUndefined.
Proof.
  split.
  - induction stream as [|[t' [| |e]] stream IH]; cbn; [done|..].
    + intros [(before & after & -> & Hd) ->]%IH. split; [|done].
      exists ((t', data) :: before), after.
      split; [done|]. by apply Forall_cons.
    + intros [= -> <-]. split; [|done]. exists [], stream.
      split; [done|]. unfold only_data. constructor.
    + done.
  - intros [(before & after & -> & Hd) ->].
    by rewrite waitFor_skips_data.
Qed.

Lemma waitFor_rejects (stream : Emission) t e :
  waitFor stream = Some (t, Rejects e) ↔ fails_at stream t e.
Proof.
  split.
  - induction stream as [|[t' [| |e']] stream IH]; cbn; [done|..].
    + intros (before & after & -> & Hd)%IH.
      exists ((t', data) :: before), after.
      split; [done|]. by apply Forall_cons.
    + done.
    + intros [= -> ->]. exists [], stream.
      split; [done|]. unfold only_data. constructor.
  - intros (before & after & -> & Hd). by rewrite waitFor_skips_data.
Qed.



Lemma Promise_all_pair_eq (p q : Promise) t1 v1 t2 v2 :
  p = Some (t1, Resolves v1) → q = Some (t2, Resolves v2) →
  Promise_all [p; q] = Some (t1 `max` t2, Resolves (VArray [v1; v2])).
Proof.
  intros Hp Hq. apply Promise_all_pair_resolves. by eexists _, _, _, _.
Qed.

(** [addServiceWorker] is called for a phase exactly when the configuration
    is loaded and the stream of the phase has ended, in the turn the later
    of the two happens. *)
Lemma postProcessing_calls_iff E load phase folder config is_bundled t o :
  CallAddServiceWorker t o
    ∈ (postProcessing E load phase folder config is_bundled).2 ↔
  ∃ t0 cfg t1 v, load = Some (t0, Resolves cfg) ∧
    waitFor (emission E phase) = Some (t1, Resolves v) ∧
    t = t0 `max` t1 ∧ o = worker_options config folder is_bundled cfg.
Proof.
  rewrite postProcessing_snd. split.
  - destruct (Promise_all _) as [[t' [results|e]]|] eqn:Hall;
      [|by intros ?%elem_of_nil..].
    apply Promise_all_pair_resolves in Hall
      as (t1 & cfg & t2 & v2 & -> & Hw & -> & ->).
    intros [= -> ->]%list_elem_of_singleton. by exists t1, cfg, t2, v2.
  - intros (t0 & cfg & t1 & v & -> & Hw & -> & ->).
    rewrite (Promise_all_pair_eq _ _ _ _ _ _ eq_refl Hw).
    by apply list_elem_of_singleton.
Qed.

(** With the configuration loaded and the stream of the phase ended, the
    post-processing of the phase is the call of [addServiceWorker] with
    that configuration, in the turn the later of the two happens. *)
Lemma postProcessing_consumes E load phase folder config is_bundled t0 cfg t1 :
  load = Some (t0, Resolves cfg) → ends_at (emission E phase) t1 →
  postProcessing E load phase folder config is_bundled
  = call_addServiceWorker E (worker_options config folder is_bundled cfg)
      (t0 `max` t1).
Proof.
  intros Hload Hend. unfold postProcessing.
  assert (waitFor (emission E phase) = Some (t1, Resolves VUndefined)) as Hw
    by (by apply waitFor_resolves).
  by rewrite (Promise_all_pair_eq _ _ _ _ _ _ Hload Hw).
Qed.

(** With the loading failed, and the stream of the phase not failed by
    then, the post-processing of the phase fails as the loading did, and
    calls nothing. *)
Lemma postProcessing_fails_with_load
    E load phase folder config is_bundled t0 e :
  load = Some (t0, Rejects e) →
  (∀ t e', fails_at (emission E phase) t e' → t0 < t) →
  postProcessing E load phase folder config is_bundled
  = (Some (t0, Rejects e), []).
Proof.
  intros -> Hlater. unfold postProcessing, Promise_all.
  destruct (waitFor (emission E phase)) as [[t [v|e']]|] eqn:Hw; cbn;
    [done| |done].
  apply waitFor_rejects, Hlater in Hw. case_decide; [lia|done].
Qed.

End BuildFacts.

(** *** Properties of the build *)

Section BuildProperties.
Import Build.

Implicit Types (E : Collaborators) (options : value) (config : ProjectConfig).
Implicit Types (r : BuildRun).

(** C10.  [build] reads [options.js.compile] before anything else: when the
    [js] property of the options is absent (or [undefined]) the call fails
    with a [TypeError], no pipeline is built and no collaborator is
    called; the promise of the call is rejected at once. *)
Theorem build_requires_js E options config :
  get options "js" = inr VUndefined →
  build E options config
  = inl (TypeError "Cannot read property 'compile' of undefined") ∧
  build_promise E options config
  = Some (0, Rejects (TypeError "Cannot read property 'compile' of undefined")).
Proof.
  intros Hjs. unfold build_promise, build. by rewrite Hjs.
Qed.

Lemma build_requires_js_witness :
  get (VObject {["html" := VObject ∅]}) "js" = inr VUndefined ∧
  build Scenario.smooth (VObject {["html" := VObject ∅]}) Scenario.config
  = inl (TypeError "Cannot read property 'compile' of undefined").
Proof.
  split; [reflexivity|].
  apply (build_requires_js Scenario.smooth (VObject {["html" := VObject ∅]})
           Scenario.config).
  reflexivity.
Defined.

(** The defaults of [optimizeOptions] would have covered an absent [js]:
    [Object.assign({minify: true}, undefined)] is [{minify: true}]. *)
Example defaulting_comes_too_late :
  Object_assign {["minify" := VBool true]} VUndefined
  = VObject {["minify" := VBool true]}.
Proof. reflexivity. Qed.

(** [build] itself inserts the prefetch stage before the terminal write of
    the unbundled phase when its option [insertDependencyLinks] is set. *)
Lemma build_inserts_prefetch E options config r :
  build E options config = inr r →
  active (unbundledPhase r) =
    (if truthy (prop options "insertDependencyLinks")
     then [forkStream (buildStream r); PrefetchTransform config;
           dest "build/unbundled"]
     else [forkStream (buildStream r); dest "build/unbundled"]) ∧
  active (bundledPhase r) =
    [forkStream (buildStream r); bundler; dest "build/bundled"].
Proof.
  intros (js & compile & _ & _ & -> & -> & _)%build_inr.
  unfold active; cbn. by destruct (truthy _).
Qed.

Lemma buildOptions_of_inl options e :
  BuildCommand.buildOptions_of options = inl e → options = VUndefined.
Proof. by destruct options. Qed.

Lemma buildOptions_of_js options buildOptions :
  BuildCommand.buildOptions_of options = inr buildOptions →
  get buildOptions "js" = inr (VObject ∅).
Proof.
  unfold BuildCommand.buildOptions_of.
  destruct (get options _); [done|]. by intros [= <-].
Qed.

Lemma buildOptions_of_insertDependencyLinks options buildOptions :
  BuildCommand.buildOptions_of options = inr buildOptions →
  prop buildOptions "insertDependencyLinks" = VUndefined.
Proof.
  unfold BuildCommand.buildOptions_of.
  destruct (get options _); [done|]. by intros [= <-].
Qed.

(** C8.  What the code does with the command's flag: [run] stores
    [--insert-prefetch-links] in the property [insertPrefetchLinks], which
    [build] never reads, so whatever the command line, the files of
    neither phase go through the prefetch stage. *)
Theorem command_never_inserts_prefetch E options config :
  match BuildCommand.run E options config with
  | BuildCommand.ViaBuild _ (inr r) =>
      active (unbundledPhase r)
      = [forkStream (buildStream r); dest "build/unbundled"] ∧
      active (bundledPhase r)
      = [forkStream (buildStream r); bundler; dest "build/bundled"]
  | BuildCommand.ViaBuild _ (inl _) => False
  | BuildCommand.ViaEnvironment _ _ => truthy (prop options "env") = true
  | BuildCommand.Throws _ =>
      options = VUndefined ∨ truthy (prop options "env") = true
  end.
Proof.
  unfold BuildCommand.run.
  destruct (BuildCommand.buildOptions_of options) as [e|buildOptions] eqn:Ho.
  { left. by eapply buildOptions_of_inl. }
  assert (match build E buildOptions config with
          | inr r =>
              active (unbundledPhase r)
              = [forkStream (buildStream r); dest "build/unbundled"] ∧
              active (bundledPhase r)
              = [forkStream (buildStream r); bundler; dest "build/bundled"]
          | inl _ => False
          end) as Hbuild.
  { destruct (build E buildOptions config) as [e|r] eqn:Hb.
    - unfold build in Hb. by rewrite (buildOptions_of_js _ _ Ho) in Hb.
    - apply build_inserts_prefetch in Hb.
      by rewrite (buildOptions_of_insertDependencyLinks _ _ Ho) in Hb. }
  destruct (truthy (prop options "env")) eqn:Henv; cbn [andb]; [|done].
  destruct (truthy (prop (prop options "env") "build")); [|done].
  unfold BuildCommand.call_env_build.
  destruct (prop (prop options "env") "build"); by try right.
Qed.

(** The command line [--insert-prefetch-links]: the unbundled phase is the
    fork followed by the terminal write. *)
Example prefetch_flag_dropped :
  match BuildCommand.run Scenario.smooth Scenario.prefetch_flag
          Scenario.config with
  | BuildCommand.ViaBuild buildOptions (inr r) =>
      prop buildOptions "insertPrefetchLinks" = VBool true ∧
      active (unbundledPhase r)
      = [forkStream (buildStream r); dest "build/unbundled"]
  | _ => False
  end.
Proof. split; reflexivity. Qed.

(** C7.  [parsePreCacheConfig] is called exactly once in a build, and the
    promise it returns is the one both post-processing steps consume.
    Every call of [addServiceWorker] is made after that promise is
    fulfilled, with the value it is fulfilled with.  When it is rejected
    both post-processing promises are rejected and [addServiceWorker] is
    not called.  When it is fulfilled, each phase whose stream has ended
    calls [addServiceWorker] with its value, in the turn the later of the
    two happens, and the post-processing promise of the phase is the
    promise of that call.  When it is rejected, each phase whose stream
    has not failed by then has its post-processing promise rejected in
    that turn, for that reason.  While it is pending no service worker is
    generated and neither post-processing promise is fulfilled. *)
Theorem sw_config_loaded_once E options config r :
  build E options config = inr r →
  let phase (is_bundled : bool) :=
    if is_bundled then bundledPhase r else unbundledPhase r in
  let folder (is_bundled : bool) :=
    if is_bundled then "build/bundled" else "build/unbundled" in
  let promise (is_bundled : bool) :=
    if is_bundled then bundledPostProcessing r
    else unbundledPostProcessing r in
  filter is_load (external_calls r)
  = [CallParsePreCacheConfig (swPrecacheConfig r)] ∧
  loadSWConfig r = parsePreCacheConfig E (swPrecacheConfig r) ∧
  (∀ t o, CallAddServiceWorker t o ∈ external_calls r →
     ∃ t0, loadSWConfig r = Some (t0, Resolves (swConfig o)) ∧ t0 ≤ t) ∧
  (rejected (loadSWConfig r) →
     rejected (unbundledPostProcessing r) ∧
     rejected (bundledPostProcessing r) ∧
     ∀ t o, CallAddServiceWorker t o ∉ external_calls r) ∧
  (∀ t0 cfg is_bundled t1,
     loadSWConfig r = Some (t0, Resolves cfg) →
     ends_at (emission E (phase is_bundled)) t1 →
     let o := worker_options config (folder is_bundled) is_bundled cfg in
     CallAddServiceWorker (t0 `max` t1) o ∈ external_calls r ∧
     promise is_bundled = addServiceWorker_at E o (t0 `max` t1)) ∧
  (∀ t0 e is_bundled,
     loadSWConfig r = Some (t0, Rejects e) →
     (∀ t e', fails_at (emission E (phase is_bundled)) t e' → t0 < t) →
     promise is_bundled = Some (t0, Rejects e)) ∧
  (loadSWConfig r = None →
     (∀ t o, CallAddServiceWorker t o ∉ external_calls r) ∧
     ¬ fulfilled (unbundledPostProcessing r) ∧
     ¬ fulfilled (bundledPostProcessing r)).
Proof.
  intros (js & compile & _ & _ & _ & _ & Hload & HU & HB & _ & Hcalls)%build_inr.
  cbn zeta.
  assert (∀ t o, CallAddServiceWorker t o ∈ external_calls r →
            ∃ t0, loadSWConfig r = Some (t0, Resolves (swConfig o)) ∧ t0 ≤ t)
    as Hvalue.
  { rewrite Hcalls.
    intros t o [[=]|[Hin|Hin]%elem_of_app]%elem_of_cons;
      apply postProcessing_calls in Hin as (t' & t0 & cfg & [= -> ->] & -> & ?);
      by exists t0. }
  split; [|split; [done|split; [done|split; [|split; [|split]]]]].
  - rewrite Hcalls, filter_cons_True by done.
    by rewrite filter_app, !postProcessing_no_load.
  - intros Hrej. rewrite HU, HB. split; [|split].
    + apply postProcessing_rejected. by left.
    + apply postProcessing_rejected. by left.
    + intros t o (t0 & Hl & _)%Hvalue.
      destruct Hrej as (? & ? & Hrej); congruence.
  - intros t0 cfg is_bundled t1 Hl Hend. rewrite Hcalls, HU, HB.
    destruct is_bundled;
      rewrite (postProcessing_consumes _ _ _ _ _ _ _ _ _ Hl Hend);
      (split; [|done]); set_solver.
  - intros t0 e is_bundled Hl Hlater. rewrite HU, HB.
    by destruct is_bundled;
      rewrite (postProcessing_fails_with_load _ _ _ _ _ _ _ _ Hl Hlater).
  - intros Hpending. split; [|split].
    + intros t o (t0 & Hl & _)%Hvalue. congruence.
    + rewrite HU. intros (? & ? & ? & _)%postProcessing_fulfilled. congruence.
    + rewrite HB. intros (? & ? & ? & _)%postProcessing_fulfilled. congruence.
Qed.

(** Both phases end in turn 3, after the configuration is loaded: the
    service worker of the bundled phase is generated in turn 3, with the
    configuration. *)
Lemma sw_config_loaded_once_witness :
  ∃ r, build Scenario.smooth Scenario.plain_options Scenario.config = inr r ∧
    filter is_load (external_calls r)
    = [CallParsePreCacheConfig (swPrecacheConfig r)] ∧
    CallAddServiceWorker 3
      (worker_options Scenario.config "build/bundled" true VUndefined)
      ∈ external_calls r ∧
    bundledPostProcessing r = Some (4, Resolves VUndefined).
Proof.
  eexists. split; [reflexivity|].
  pose proof (sw_config_loaded_once Scenario.smooth Scenario.plain_options
                Scenario.config _ eq_refl) as (Honce & _ & _ & _ & Hboth & _).
  split; [exact Honce|].
  apply (Hboth 1 VUndefined true 3); [reflexivity|].
  exists [(2, data)], []. split; [reflexivity|]. by repeat constructor.
Defined.





(** C4 fails: with the bundled phase failing in turn 2 and the unbundled
    phase in turn 5, the build reports the failure of the bundled phase in turn 2:
    before the post-processing of the unbundled phase has settled, and not
    the failure of the lowest index. *)
Lemma completion_does_not_wait :
  ∃ r, build Scenario.both_fail Scenario.plain_options Scenario.config = inr r ∧
    unbundledPostProcessing r = Some (5, Rejects (Failure "unbundled")) ∧
    bundledPostProcessing r = Some (2, Rejects (Failure "bundled")) ∧
    completion r = Some (2, Rejects (Failure "bundled")) ∧
    ¬ waits_for_all
        [unbundledPostProcessing r; bundledPostProcessing r; loadSWConfig r]
        (completion r).
Proof.
  eexists. split; [reflexivity|]. do 3 (split; [reflexivity|]).
  intros Hpolicy. destruct (Hpolicy 2 _ eq_refl) as [Hall _].
  apply Forall_cons in Hall as [(t' & o & Heq & Hle) _].
  vm_compute in Heq. injection Heq as <- _. lia.
Qed.

(** C4, as the code has it.  The build awaits [Promise.all] of the two
    post-processing promises: it is fulfilled once both are, in the turn
    the later one is; it is rejected as soon as one of them is, with the
    reason of the one that is rejected first, whatever has become of the
    other by then. *)
Theorem completion_fails_fast E options config r :
  build E options config = inr r →
  let inputs := [unbundledPostProcessing r; bundledPostProcessing r] in
  (∀ t, (∃ v, completion r = Some (t, Resolves v)) ↔
     ∃ t1 v1 t2 v2, unbundledPostProcessing r = Some (t1, Resolves v1) ∧
       bundledPostProcessing r = Some (t2, Resolves v2) ∧ t = t1 `max` t2) ∧
  (∀ t e, completion r = Some (t, Rejects e) →
     Some (t, Rejects e) ∈ inputs ∧
     ∀ t' e', Some (t', Rejects e') ∈ inputs → t ≤ t') ∧
  (rejected (completion r) ↔ Exists rejected inputs).
Proof.
  intros (js & compile & _ & _ & _ & _ & _ & _ & _ & -> & _)%build_inr.
  cbn zeta. split; [|split].
  - intros t. split.
    + intros [v Hc].
      destruct (Promise_all _) as [[t0 [results|e]]|] eqn:Hall; simplify_eq/=.
      apply Promise_all_pair_resolves in Hall
        as (t1 & v1 & t2 & v2 & ? & ? & ? & ?). by exists t1, v1, t2, v2.
    + intros (t1 & v1 & t2 & v2 & HU & HB & ->).
      exists VUndefined.
      assert (Promise_all [unbundledPostProcessing r; bundledPostProcessing r]
              = Some (t1 `max` t2, Resolves (VArray [v1; v2]))) as ->; [|done].
      apply Promise_all_pair_resolves. by exists t1, v1, t2, v2.
  - intros t e Hc. apply Promise_all_first_rejection.
    by destruct (Promise_all _) as [[t0 [results|e0]]|]; simplify_eq/=.
  - rewrite then_rejected, Promise_all_pair_rejected, Exists_cons,
      Exists_cons, Exists_nil.
    split; [|tauto]. intros [?|(? & ? & _ & (? & ? & ?))]; [tauto|done].
Qed.

(** A malformed configuration file fails the build, although both phases
    end well, and no service worker is generated. *)
Example malformed_config_fails_build :
  ∃ r, build Scenario.malformed Scenario.plain_options Scenario.config = inr r ∧
    completion r = Some (1, Rejects (Failure "malformed")) ∧
    filter is_load (external_calls r) = external_calls r.
Proof. eexists. split; [reflexivity|]. split; reflexivity. Qed.

Lemma completion_fails_fast_witness :
  ∃ r, build Scenario.both_fail Scenario.plain_options Scenario.config = inr r ∧
    rejected (completion r).
Proof.
  eexists. split; [reflexivity|].
  eapply (completion_fails_fast Scenario.both_fail Scenario.plain_options
            Scenario.config); [reflexivity|].
  apply Exists_cons_hd. by exists 5, (Failure "unbundled").
Defined.

End BuildProperties.

(** *** [getFileContents], [waitFor], [waitForAll], [pipeStreams] *)

Section FileContents.
Import Build StreamUtils.

Lemma collect_chunks acc chunks events :
  collect acc ((chunk <$> chunks) ++ events) = collect (acc ++ chunks) events.
Proof.
  revert acc. induction chunks as [|c chunks IH]; intros acc; cbn.
  - by rewrite app_nil_r.
  - by rewrite IH, <- app_assoc.
Qed.

(** X1.  The contents of a stream file are the chunks emitted before the
    first ['end'], joined, whatever is emitted after it: the same as for a
    buffer file holding the joined text, wherever the chunk boundaries
    fall. *)
Theorem getFileContents_joins_chunks name chunks rest :
  getFileContents
    {| path := name; contents := Stream ((chunk <$> chunks) ++ finish :: rest) |}
  = Some (inr (join chunks)) ∧
  getFileContents
    {| path := name; contents := Stream ((chunk <$> chunks) ++ finish :: rest) |}
  = getFileContents {| path := name; contents := Buffer (join chunks) |}.
Proof. unfold getFileContents; cbn. by rewrite collect_chunks. Qed.

(** X2.  A stream file that fails before it ends rejects with that error,
    whatever was read before and whatever comes after; a stream that
    neither ends nor fails never gives its contents. *)
Theorem getFileContents_failure name chunks e rest :
  getFileContents
    {| path := name; contents := Stream ((chunk <$> chunks) ++ failure e :: rest) |}
  = Some (inl e) ∧
  getFileContents {| path := name; contents := Stream (chunk <$> chunks) |}
  = None.
Proof.
  unfold getFileContents; cbn. split.
  - by rewrite collect_chunks.
  - by rewrite <- (app_nil_r (chunk <$> chunks)), collect_chunks.
Qed.

End FileContents.

Section WaitFor.
Import Build StreamUtils.

(** X3.  [waitFor] is settled by the first ['end'] or ['error'] of the
    stream, in the turn it is emitted: ['data'] events before it and
    whatever is emitted after it change nothing; a stream that emits only
    ['data'] leaves the promise pending. *)
Theorem waitFor_first_terminal (pre rest : Emission) t :
  Forall (λ x, x.2 = data) pre →
  waitFor (pre ++ (t, end_) :: rest) = Some (t, Resolves VUndefined) ∧
  (∀ e, waitFor (pre ++ (t, error e) :: rest) = Some (t, Rejects e)) ∧
  waitFor pre = None.
Proof.
  intros Hpre. rewrite waitFor_skips_data by done. split; [done|]. split.
  - intros e. by rewrite waitFor_skips_data.
  - by rewrite <- (app_nil_r pre), waitFor_skips_data.
Qed.

Lemma waitFor_first_terminal_witness :
  waitFor ([(1, data); (2, data)] ++ (3, end_) :: [(4, error (Failure "late"))])
  = Some (3, Resolves VUndefined).
Proof.
  apply (waitFor_first_terminal [(1, data); (2, data)]
           [(4, error (Failure "late"))] 3).
  by repeat constructor.
Defined.

Lemma waitFor_resolves_undefined (s : Emission) t v :
  waitFor s = Some (t, Resolves v) → v = VUndefined.
Proof.
  induction s as [|[t' [| |e]] s IH]; cbn; try done. by intros [= _ <-].
Qed.

Lemma Promise_all_resolves (ps : list Promise) t v :
  Promise_all ps = Some (t, Resolves v) ↔
  ∃ tvs, mapM fulfilment ps = Some tvs ∧ t = max_list (tvs.*1) ∧
    v = VArray (tvs.*2).
Proof.
  unfold Promise_all. destruct (earliest _) as [[t' e']|] eqn:He.
  - split; [done|]. intros (tvs & Hm & _). exfalso.
    apply earliest_Some in He as [Hin _]. apply elem_of_rejections in Hin.
    apply mapM_Some_1 in Hm.
    apply list_elem_of_lookup in Hin as [i Hi].
    destruct (Forall2_lookup_l _ _ _ _ _ Hm Hi) as (y & _ & Hy). done.
  - destruct (mapM _ _) as [tvs|]; [|split; [done|by intros (? & ? & _)]].
    split.
    + intros [= <- <-]. by exists tvs.
    + intros (? & [= <-] & -> & ->). done.
Qed.

Lemma fulfilment_Some (p : Promise) t v :
  fulfilment p = Some (t, v) ↔ p = Some (t, Resolves v).
Proof. destruct p as [[t' [v'|e]]|]; cbn; split; by intros [= -> ->]. Qed.

(** X4.  [waitForAll] is fulfilled exactly when every stream ends before
    it fails; it is then fulfilled with one [undefined] for each stream,
    not before the last of them has ended.  Without streams it is
    fulfilled at once. *)
Theorem waitForAll_fulfilled (streams : list Emission) :
  (fulfilled (waitForAll streams) ↔
   Forall (λ s, fulfilled (waitFor s)) streams) ∧
  (∀ t v, waitForAll streams = Some (t, Resolves v) →
     v = VArray (replicate (length streams) VUndefined) ∧
     Forall (λ s, ∃ t', waitFor s = Some (t', Resolves VUndefined) ∧ t' ≤ t)
       streams) ∧
  waitForAll [] = Some (0, Resolves (VArray [])).
Proof.
  assert (∀ t v, waitForAll streams = Some (t, Resolves v) →
            v = VArray (replicate (length streams) VUndefined) ∧
            Forall (λ s, ∃ t', waitFor s = Some (t', Resolves VUndefined)
                               ∧ t' ≤ t) streams) as Hval.
  { intros t v (tvs & Hm & -> & ->)%Promise_all_resolves.
    apply mapM_Some_1 in Hm. rewrite Forall2_fmap_l in Hm.
    clear -Hm. induction Hm as [|s [t v] streams tvs Hs _ [IHv IHt]]; cbn.
    { by split. }
    apply fulfilment_Some in Hs.
    pose proof (waitFor_resolves_undefined _ _ _ Hs) as ->.
    injection IHv as ->. split; [done|]. constructor.
    - exists t. split; [done|lia].
    - eapply Forall_impl; [exact IHt|]. cbn.
      intros s' (t' & ? & ?). exists t'. split; [done|lia]. }
  split; [|by split]. split.
  - intros (t & v & Hall). destruct (Hval t v Hall) as [_ Hs].
    eapply Forall_impl; [exact Hs|]. intros s (t' & ? & _). by eexists _, _.
  - intros Hall.
    assert (∃ tvs, Forall2 (λ p y, fulfilment p = Some y)
                     (waitFor <$> streams) tvs) as [tvs Htvs].
    { clear Hval. induction Hall as [|s streams Hs _ IH].
      - exists []. constructor.
      - destruct Hs as (t & v & Hs). destruct IH as [tvs IH].
        exists ((t, v) :: tvs). rewrite fmap_cons. constructor; [|done].
        by rewrite Hs. }
    eexists _, _. apply Promise_all_resolves. exists tvs.
    split; [by apply mapM_Some_2|done].
Qed.

(** X5.  [waitForAll] is rejected exactly when one of the streams fails
    before it ends; it is rejected with the error of the stream that
    fails first, in the turn that stream fails. *)
Theorem waitForAll_rejected (streams : list Emission) :
  (rejected (waitForAll streams) ↔ Exists (λ s, rejected (waitFor s)) streams) ∧
  ∀ t e, waitForAll streams = Some (t, Rejects e) →
    (∃ s, s ∈ streams ∧ waitFor s = Some (t, Rejects e)) ∧
    ∀ s t' e', s ∈ streams → waitFor s = Some (t', Rejects e') → t ≤ t'.
Proof.
  split.
  - unfold waitForAll. rewrite Promise_all_rejected, Exists_exists. split.
    + intros (p & (s & -> & Hs)%list_elem_of_fmap & Hp). by exists s.
    + intros (s & Hs & Hp). exists (waitFor s). split; [|done].
      by apply list_elem_of_fmap_2.
  - intros t e [Hin Hmin]%Promise_all_first_rejection. split.
    + apply list_elem_of_fmap in Hin as (s & Hs & ?). by exists s.
    + intros s t' e' Hs Hw. apply (Hmin t' e'). rewrite <- Hw.
      by apply list_elem_of_fmap_2.
Qed.

End WaitFor.

Section PipeStreams.
Import Build StreamUtils.
Context {S : Type} (pipe : S → S → S).

Lemma flatten_nil (streams : list (PipeStream S)) :
  flatten streams = [] ↔ Forall (λ p, p = Many []) streams.
Proof.
  unfold flatten. induction streams as [|[s|ss] streams IH]; cbn.
  - split; [constructor|done].
  - split; [done|]. by intros [[=] _]%Forall_cons.
  - split.
    + intros [-> ?]%app_eq_nil. constructor; [done|]. by apply IH.
    + intros [[= ->] ?]%Forall_cons. cbn. by apply IH.
Qed.

(** X6.  [pipeStreams] throws a [TypeError] exactly when its argument holds
    no stream at all: it is empty, or made of empty arrays only. *)
Theorem pipeStreams_empty (streams : list (PipeStream S)) :
  (∃ e, pipeStreams pipe streams = inl e) ↔
  Forall (λ p, p = Many []) streams.
Proof.
  rewrite <- flatten_nil. unfold pipeStreams.
  destruct (flatten streams); split; try done.
  - intros _. by eexists.
  - by intros [e ?].
Qed.

Lemma reduce_app a l1 l2 :
  reduce pipe a (l1 ++ l2)
  = ((reduce pipe (reduce pipe a l1).1 l2).1,
     (reduce pipe a l1).2 ++ (reduce pipe (reduce pipe a l1).1 l2).2).
Proof.
  revert a. induction l1 as [|b l1 IH]; intros a; cbn.
  - by destruct (reduce pipe a l2).
  - rewrite IH. destruct (reduce pipe (pipe a b) l1) as [m c1]. cbn.
    by destruct (reduce pipe m l2).
Qed.

(** X7.  With the [pipe] of Node's streams, which returns its argument,
    [pipeStreams] pipes each stream of the flattened argument into the
    next one, in order, and returns the last one. *)
Theorem pipeStreams_chain (streams : list (PipeStream S)) result calls :
  (∀ a b, pipe a b = b) →
  pipeStreams pipe streams = inr (result, calls) →
  last (flatten streams) = Some result ∧
  calls = zip (flatten streams) (tail (flatten streams)).
Proof.
  intros Hpipe. unfold pipeStreams.
  destruct (flatten streams) as [|a rest]; [done|]. intros [= Hr].
  revert a result calls Hr. induction rest as [|b rest IH]; intros a r c; cbn.
  - by intros [= <- <-].
  - rewrite Hpipe. destruct (reduce pipe b rest) as [r' c'] eqn:Hred.
    intros [= <- <-]. destruct (IH b r' c' Hred) as [Hlast ->].
    split; [|done]. by destruct rest.
Qed.

(** X8.  Piping composes: the pipeline of [streams ++ more] is the
    pipeline of [streams], piped on into [more]. *)
Theorem pipeStreams_app (streams more : list (PipeStream S)) result calls :
  pipeStreams pipe streams = inr (result, calls) →
  pipeStreams pipe (streams ++ more)
  = match pipeStreams pipe (One result :: more) with
    | inr (result', calls') => inr (result', calls ++ calls')
    | inl e => inl e
    end.
Proof.
  unfold pipeStreams, flatten. rewrite bind_app. cbn.
  destruct (streams ≫= _) as [|a rest]; [done|]. intros [= Hr]. cbn.
  rewrite reduce_app, Hr. cbn. by destruct (reduce pipe result _).
Qed.

End PipeStreams.

Section PipeStreamsExample.
Import Build StreamUtils.

Lemma pipeStreams_chain_witness :
  last (flatten [One 1; Many [2; 3]; Many []; One 4]) = Some 4.
Proof.
  eapply (pipeStreams_chain (λ _ b : nat, b)
            [One 1; Many [2; 3]; Many []; One 4]); [done|reflexivity].
Defined.

Lemma pipeStreams_app_witness :
  pipeStreams Nat.add ([One 1; Many [2; 3]] ++ [One 4])
  = inr (10, [(1, 2); (3, 3)] ++ [(6, 4)]).
Proof.
  apply (pipeStreams_app Nat.add [One 1; Many [2; 3]] [One 4] 6
           [(1, 2); (3, 3)]).
  reflexivity.
Defined.

End PipeStreamsExample.

(** *** More about the iterable and the adapter *)

Section Fifo.
Import Streams Adapter.
Context {V : Type}.

Implicit Types (h : Heap V) (w : WritableAsyncIterable V).
Implicit Types (values : list (IteratorResult V)).

Lemma write_all_unblocked values h w :
  blockedOn w = None →
  write_all values h w
  = (seq (length h) (length values),
     h ++ replicate (length values) Pending,
     {| blockedOn := None;
        backlog := backlog w ++ zip values (seq (length h) (length values));
        _closed := _closed w |}).
Proof.
  revert h w. induction values as [|value values IH]; intros h w Hb; cbn.
  - rewrite !app_nil_r. by destruct w; cbn in *; subst.
  - unfold _write, alloc. rewrite Hb. rewrite IH by done. cbn.
    rewrite length_app, Nat.add_1_r, <- !app_assoc. done.
Qed.

Lemma shift_all_backlog values base h b c :
  (∀ i, i < length values → h !! (base + i) = Some Pending) →
  ∃ h', shift_all (length values) h
          {| blockedOn := b;
             backlog := zip values (seq base (length values));
             _closed := c |}
        = (Took <$> values, h',
           {| blockedOn := b; backlog := []; _closed := c |}) ∧
    (∀ i, i < length values → h' !! (base + i) = Some (Fulfilled Undefined)) ∧
    (∀ d, d < base ∨ base + length values ≤ d → h' !! d = h !! d).
Proof.
  revert base h. induction values as [|value values IH]; intros base h Hp.
  { exists h. cbn. split; [done|]. split; [intros; lia|done]. }
  cbn [length seq zip zip_with shift_all]. unfold shift at 1. cbn.
  destruct (IH (S base) (resolve base Undefined h)) as (h' & -> & Hres & Hold).
  { intros i Hi. rewrite resolve_lookup_ne by lia.
    replace (S base + i) with (base + S i) by lia. apply Hp. cbn. lia. }
  exists h'. split; [done|]. split.
  - intros [|i] Hi.
    + rewrite Hold by lia. rewrite Nat.add_0_r.
      apply resolve_lookup_pending. rewrite <- (Nat.add_0_r base) at 1.
      apply Hp. cbn. lia.
    + replace (base + S i) with (S base + i) by lia. apply Hres. cbn in Hi. lia.
  - intros d Hd. cbn in Hd. rewrite Hold by lia.
    apply resolve_lookup_ne. lia.
Qed.

(** X9.  The backlog is a queue.  Items written while no consumer waits get
    one pending deferred each; the iterator then takes the items in the
    order they were written, resolves the deferred of each item it takes,
    leaves the backlog empty and touches no other promise. *)
Theorem backlog_is_fifo values h w :
  blockedOn w = None → backlog w = [] →
  ∃ ps h1 w1 h2 w2,
    write_all values h w = (ps, h1, w1) ∧
    Forall (λ p, h1 !! p = Some Pending) ps ∧
    shift_all (length values) h1 w1 = (Took <$> values, h2, w2) ∧
    Forall (λ p, h2 !! p = Some (Fulfilled Undefined)) ps ∧
    backlog w2 = [] ∧ blockedOn w2 = None ∧
    ∀ d, d < length h → h2 !! d = h !! d.
Proof.
  intros Hb Hbl. rewrite write_all_unblocked, Hbl by done. cbn.
  destruct (shift_all_backlog values (length h)
              (h ++ replicate (length values) Pending) None (_closed w))
    as (h2 & Hs & Hres & Hold).
  { intros i Hi. rewrite lookup_app_r by lia.
    replace (length h + i - length h) with i by lia.
    by apply lookup_replicate_2. }
  eexists _, _, _, h2, _. split; [done|]. split; [|split; [exact Hs|]].
  - apply Forall_forall. intros p [? ?]%elem_of_seq.
    rewrite lookup_app_r by lia. apply lookup_replicate_2. lia.
  - split; [|split; [done|split; [done|]]].
    + apply Forall_forall. intros p [? ?]%elem_of_seq.
      replace p with (length h + (p - length h)) by lia. apply Hres. lia.
    + intros d Hd. rewrite Hold by lia. by apply lookup_app_l.
Qed.

End Fifo.

Section FifoExample.
Import Streams Adapter.

Lemma backlog_is_fifo_witness :
  ∃ ps (h1 : Heap nat) w1 h2 w2,
    write_all [IterValue 7; IterValue 8; IterDone] [Pending] new_iterable
    = (ps, h1, w1) ∧
    Forall (λ p, h1 !! p = Some Pending) ps ∧
    shift_all 3 h1 w1 = (Took <$> [IterValue 7; IterValue 8; IterDone], h2, w2).
Proof.
  destruct (backlog_is_fifo [IterValue 7; IterValue 8; IterDone] [Pending]
              new_iterable eq_refl eq_refl)
    as (ps & h1 & w1 & h2 & w2 & Hw & Hp & Hs & _).
  by exists ps, h1, w1, h2, w2.
Defined.

End FifoExample.

Section AdapterInvariants.
Import Streams Adapter.
Context {In Out : Type} `{T : TransformIter In Out}.

Implicit Types (st : AsyncTransformStream T) (evs : list (Event In)).

(** X10.  At no moment is the consumer blocked while an item waits in the
    backlog: when [blockedOn] is set, the backlog is empty, the transform
    is suspended in a pull on that very deferred, and the deferred is
    pending. *)
Theorem blocked_only_on_empty_backlog evs d :
  let st := run evs (new_stream (T := T)) in
  blockedOn (_inputs st) = Some d →
  backlog (_inputs st) = [] ∧
  (∃ g, driver st = AwaitingInput d g) ∧
  heap st !! d = Some Pending.
Proof.
  cbn zeta. intros Hb.
  destruct (run_consistent evs new_stream consistent_new)
    as [_ _ Hawait Hblocked _ _ _ _ _].
  destruct (Hblocked d Hb) as ([g Hd] & Hbl & _).
  split; [done|]. split; [by exists g|].
  destruct (Hawait d g Hd) as [[_ ?]|[? _]]; [done|congruence].
Qed.

(** X11.  What the adapter has pushed is what the transform has yielded,
    in the same order, short of at most one value: the one the loop has
    been handed and has not pushed yet. *)
Theorem pushes_follow_yields evs :
  let st := run evs (new_stream (T := T)) in
  ∃ waiting, yielded st = pushed st ++ waiting ∧ length waiting ≤ 1.
Proof.
  cbn zeta.
  destruct (run_consistent evs new_stream consistent_new)
    as [_ _ _ _ _ _ _ _ Hyield].
  exists (awaiting_push (driver (run evs new_stream))). split; [done|].
  destruct (driver _); cbn; lia.
Qed.

Lemma error_once_advance st st' :
  error_once st → advance st = Some st' → error_once st'.
Proof.
  unfold error_once, advance.
  destruct st as [h [b bl c] r i d t ps es tc fc pl ys]; cbn.
  intros Hinv.
  destruct d as [|g|d g|o g| |e| |]; try done.
  - destruct (resume g) as [k|o g'| |e]; cbn; try (by intros [= <-]).
    destruct r; [by intros [= <-]|]. unfold shift, alloc.
    destruct bl as [|[[v|] d] rest]; cbn; by intros [= <-].
  - destruct (h !! d) as [[|[|[v|]]|]|]; try done;
      destruct (resume g) as [k|o g'| |e']; try done; by intros [= <-].
  - by intros [= <-].
  - by intros [= <-].
  - intros [= <-]; cbn. exists e. by rewrite Hinv.
Qed.

Lemma error_once_step ev st :
  consistent st → error_once st → error_once (step ev st).
Proof.
  intros [_ Hinit _ _ _ _ _ _ _] Hinv. destruct ev as [v| | |i]; cbn [step].
  - assert (error_once (_initializeOnce st)) as Hinv1.
    { unfold _initializeOnce. destruct (_initialized st) eqn:Hi; [done|].
      specialize (Hinit eq_refl).
      assert (error_once
                (set_driver (Running _transformIter) (set_initialized st)))
        as Hinv0.
      { unfold error_once in *.
        destruct st as [h [b bl c] r i d t ps es tc fc pl ys]; cbn in *.
        by subst d. }
      destruct (advance _) as [st'|] eqn:Hadv; cbn; [|done].
      by eapply error_once_advance. }
    unfold _transform. destruct (write v _ _) as [[p h] w].
    unfold error_once in *. by destruct (_initializeOnce st).
  - unfold _flush. destruct (close _ _) as [[p h] w].
    unfold error_once in *. by destruct st.
  - destruct (advance st) as [st'|] eqn:Hadv; cbn; [|done].
    by eapply error_once_advance.
  - unfold settle, error_once in *.
    destruct st as [h [b bl c] r i0 d t ps es tc fc pl ys]; cbn in *.
    destruct (t !! i) as [[p|p|]|]; [| | |done].
    + destruct (h !! p) as [[|x|e]|]; cbn; exact Hinv.
    + destruct (h !! p) as [[|x|e]|]; cbn; exact Hinv.
    + destruct (h !! _writingFinished) as [[|x|e]|]; cbn; exact Hinv.
Qed.

Lemma error_once_run evs st :
  consistent st → error_once st → error_once (run evs st).
Proof.
  revert st. induction evs as [|ev evs IH]; intros st Hc Hinv; cbn [run].
  - done.
  - apply IH; [by apply step_consistent|by apply error_once_step].
Qed.

(** An ['error'] is emitted at most once, and no completion is signalled
    once it is: [_writingFinished] stays pending and the callback of
    [_flush] is not called. *)
Lemma error_emitted_once evs :
  let st := run evs (new_stream (T := T)) in
  errors st ≠ [] →
  (∃ e, errors st = [e]) ∧ driver st = Failed ∧
  heap st !! _writingFinished = Some Pending ∧
  flush_callbacks st = [].
Proof.
  cbn zeta. intros He.
  pose proof (run_consistent evs new_stream consistent_new) as Hc.
  pose proof (error_once_run evs new_stream consistent_new eq_refl) as Hinv.
  destruct Hc as [Hheap _ _ _ _ _ _ Hflushed _].
  unfold error_once in Hinv.
  destruct (driver (run evs new_stream)) eqn:Hd; try done.
  split; [done|]. split; [done|]. split.
  - by destruct Hheap as [?|[? _]].
  - destruct (flush_callbacks _) as [|c cs]; [done|].
    by destruct Hflushed as (_ & _ & _ & ?).
Qed.

(** Only a step of the transform's activity moves it or emits
    ['error'], once the transform is started. *)
Lemma call_keeps_driver ev st :
  _initialized st = true → ev ≠ Advance →
  driver (step ev st) = driver st ∧ errors (step ev st) = errors st.
Proof.
  intros Hi Hev. destruct ev as [v| | |i]; cbn [step]; [| |done|].
  - unfold _transform, _initializeOnce. rewrite Hi.
    destruct (write v _ _) as [[p h] w]. by destruct st.
  - unfold _flush. destruct (close _ _) as [[p h] w]. by destruct st.
  - unfold settle.
    destruct st as [h [b bl c] r i0 d t ps es tc fc pl ys]; cbn in *.
    destruct (t !! i) as [[p|p|]|]; [| | |done].
    + by destruct (h !! p) as [[|x|e]|].
    + by destruct (h !! p) as [[|x|e]|].
    + by destruct (h !! _writingFinished) as [[|x|e]|].
Qed.

Lemma started_initialized st :
  consistent st → driver st ≠ NotStarted → _initialized st = true.
Proof.
  intros [_ Hinit _ _ _ _ _ _ _] Hd.
  destruct (_initialized st); [done|]. by destruct Hd; apply Hinit.
Qed.

Lemma failed_run evs st :
  consistent st → driver st = Failed →
  driver (run evs st) = Failed ∧ errors (run evs st) = errors st.
Proof.
  revert st. induction evs as [|ev evs IH]; intros st Hc Hd; cbn [run]; [done|].
  assert (driver (step ev st) = Failed ∧ errors (step ev st) = errors st)
    as [Hd' He'].
  { assert (ev = Advance ∨ ev ≠ Advance) as [->|Hev]
    by (destruct ev; (by left) || (by right)).
    - cbn. unfold advance. by rewrite Hd.
    - rewrite <- Hd. apply call_keeps_driver; [|done].
      apply started_initialized; [done|]. by rewrite Hd. }
  rewrite <- He'. apply IH; [by apply step_consistent|done].
Qed.

Lemma threw_run evs st e :
  consistent st → driver st = Threw e → errors st = [] →
  (advances evs = 0 ∧
   driver (run evs st) = Threw e ∧ errors (run evs st) = []) ∨
  (0 < advances evs ∧
   driver (run evs st) = Failed ∧ errors (run evs st) = [e]).
Proof.
  revert st. induction evs as [|ev evs IH]; intros st Hc Hd He; cbn [run].
  { by left. }
  assert (ev = Advance ∨ ev ≠ Advance) as [->|Hev]
    by (destruct ev; (by left) || (by right)).
  - right. cbn [advances]. split; [lia|].
    assert (step Advance st = set_driver Failed (log_error e st)) as Hstep.
    { cbn. unfold advance. by rewrite Hd. }
    destruct (failed_run evs (step Advance st)) as [-> ->].
    + by apply step_consistent.
    + rewrite Hstep. by destruct st.
    + rewrite Hstep. split; [done|]. destruct st; cbn in *. by rewrite He.
  - destruct (call_keeps_driver ev st) as [Hd' He']; [|done|].
    { apply started_initialized; [done|]. by rewrite Hd. }
    assert (advances (ev :: evs) = advances evs) as ->
      by (by destruct ev).
    apply IH; [by apply step_consistent|congruence..].
Qed.

(** X12.  A transform that throws surfaces as one ['error'].  Once the
    transform has thrown [e], nothing is emitted until its activity moves
    on; from its next step on, whatever else happens, ['error'] has been
    emitted exactly once, with [e].  Completion is never signalled:
    [_writingFinished] stays pending and the callback of [_flush] is not
    called. *)
Theorem transform_error_surfaces evs evs' e :
  let st := run evs (new_stream (T := T)) in
  let st' := run evs' st in
  driver st = Threw e →
  errors st = [] ∧
  (advances evs' = 0 → errors st' = [] ∧ driver st' = Threw e) ∧
  (0 < advances evs' → errors st' = [e] ∧ driver st' = Failed) ∧
  heap st' !! _writingFinished = Some Pending ∧
  flush_callbacks st' = [].
Proof.
  cbn zeta. intros Hd.
  pose proof (run_consistent evs new_stream consistent_new) as Hc.
  pose proof (error_once_run evs new_stream consistent_new eq_refl) as He.
  unfold error_once in He. rewrite Hd in He.
  pose proof (run_consistent evs' _ Hc) as [Hheap _ _ _ _ _ _ Hflushed _].
  destruct (threw_run evs' _ e Hc Hd He) as [(Hn & Hd' & He')|(Hn & Hd' & He')].
  - split; [done|]. split; [done|]. split; [lia|]. split.
    + destruct Hheap as [?|[? _]]; [done|congruence].
    + destruct (flush_callbacks _) as [|c cs]; [done|].
      destruct Hflushed as (_ & _ & _ & ?); [done|congruence].
  - split; [done|]. split; [lia|]. split; [done|]. split.
    + destruct Hheap as [?|[? _]]; [done|congruence].
    + destruct (flush_callbacks _) as [|c cs]; [done|].
      destruct Hflushed as (_ & _ & _ & ?); [done|congruence].
Qed.

Lemma initialized_advance st st' :
  advance st = Some st' → _initialized st' = _initialized st.
Proof.
  unfold advance.
  destruct st as [h [b bl c] r i d t ps es tc fc pl ys]; cbn.
  destruct d as [|g|d g|o g| |e| |]; try done; try (by intros [= <-]).
  - destruct (resume g) as [k|o g'| |e]; cbn; try (by intros [= <-]).
    destruct r; [by intros [= <-]|]. unfold shift, alloc.
    destruct bl as [|[[v|] d] rest]; cbn; by intros [= <-].
  - destruct (h !! d) as [[|[|[v|]]|]|]; try done;
      destruct (resume g) as [k|o g'| |e']; try done; by intros [= <-].
Qed.

Lemma initialized_initializeOnce st :
  _initialized (_initializeOnce st) = true.
Proof.
  unfold _initializeOnce. destruct (_initialized st) eqn:Hi; [done|].
  destruct (advance _) as [st'|] eqn:Hadv; cbn.
  - rewrite (initialized_advance _ _ Hadv). by destruct st.
  - by destruct st.
Qed.

(** X13.  The transform is started once: [_initializeOnce] is idempotent,
    so a further [_transform] neither creates a second generator nor
    moves the first one. *)
Theorem initializeOnce_idempotent st :
  _initializeOnce (_initializeOnce st) = _initializeOnce st.
Proof.
  unfold _initializeOnce at 1. by rewrite initialized_initializeOnce.
Qed.

Lemma tasks_advance st st' :
  advance st = Some st' →
  tasks st' = tasks st ∧ transform_callbacks st' = transform_callbacks st ∧
  flush_callbacks st' = flush_callbacks st.
Proof.
  unfold advance.
  destruct st as [h [b bl c] r i d t ps es tc fc pl ys]; cbn.
  destruct d as [|g|d g|o g| |e| |]; try done; try (by intros [= <-]).
  - destruct (resume g) as [k|o g'| |e]; cbn; try (by intros [= <-]).
    destruct r; [by intros [= <-]|]. unfold shift, alloc.
    destruct bl as [|[[v|] d] rest]; cbn; by intros [= <-].
  - destruct (h !! d) as [[|[|[v|]]|]|]; try done;
      destruct (resume g) as [k|o g'| |e']; try done; by intros [= <-].
Qed.

Lemma tasks_initializeOnce st :
  tasks (_initializeOnce st) = tasks st ∧
  transform_callbacks (_initializeOnce st) = transform_callbacks st ∧
  flush_callbacks (_initializeOnce st) = flush_callbacks st.
Proof.
  unfold _initializeOnce. destruct (_initialized st); [done|].
  destruct (advance _) as [st'|] eqn:Hadv; cbn.
  - destruct (tasks_advance _ _ Hadv) as (-> & -> & ->). by destruct st.
  - by destruct st.
Qed.

Lemma filter_delete_length {A} (P : A → bool) (l : list A) i x :
  l !! i = Some x →
  length (filter P (delete i l)) + (if P x then 1 else 0)
  = length (filter P l).
Proof.
  intros Hi. rewrite <- (take_drop_middle l i x Hi) at 2.
  rewrite delete_take_drop, !filter_app, !length_app, filter_cons.
  destruct (P x); case_decide as HP; cbn in *; try lia; by destruct HP.
Qed.

Lemma filter_insert_length {A} (P : A → bool) (l : list A) i x y :
  l !! i = Some x → P y = P x →
  length (filter P (<[i:=y]> l)) = length (filter P l).
Proof.
  intros Hi HP. rewrite <- (take_drop_middle l i x Hi) at 2.
  rewrite insert_take_drop by (by eapply lookup_lt_Some).
  rewrite !filter_app, !length_app, !filter_cons, HP.
  destruct (P x); repeat case_decide; cbn in *; try done; exfalso; auto.
Qed.

Lemma accounted_step ev n m st :
  accounted n m st →
  accounted (n + transforms [ev]) (m + flushes [ev]) (step ev st).
Proof.
  unfold accounted, pending_transforms, pending_flushes.
  intros [Ht Hf]. destruct ev as [v| | |i]; cbn [step transforms flushes].
  - unfold _transform. destruct (write v _ _) as [[p h] w].
    destruct (tasks_initializeOnce st) as (Htasks & Htc & Hfc).
    destruct (_initializeOnce st) as [h0 [b bl c] r i d t ps es tc fc pl ys].
    cbn in *. subst. rewrite !filter_app, !length_app. cbn.
    repeat case_decide; cbn; try lia; exfalso; tauto.
  - unfold _flush. destruct (close _ _) as [[p h] w].
    destruct st as [h0 [b bl c] r i d t ps es tc fc pl ys]; cbn in *.
    rewrite !filter_app, !length_app. cbn.
    repeat case_decide; cbn; try lia; exfalso; tauto.
  - rewrite !Nat.add_0_r. destruct (advance st) as [st'|] eqn:Hadv; cbn; [|done].
    by destruct (tasks_advance _ _ Hadv) as (-> & -> & ->).
  - rewrite !Nat.add_0_r. unfold settle.
    destruct st as [h0 [b bl c] r i0 d t ps es tc fc pl ys]; cbn in *.
    destruct (t !! i) as [[p|p|]|] eqn:Hi; [| | |done].
    + pose proof (filter_delete_length is_transform_task t i _ Hi) as H1.
      pose proof (filter_delete_length (λ t, negb (is_transform_task t))
                    t i _ Hi) as H2. cbn in H1, H2.
      destruct (h0 !! p) as [[|x|e]|]; cbn; try done;
        rewrite ?length_app; cbn; lia.
    + destruct (h0 !! p) as [[|x|e]|]; cbn; try done.
      * rewrite (filter_insert_length is_transform_task t i _ _ Hi) by done.
        by rewrite (filter_insert_length (λ t, negb (is_transform_task t))
                      t i _ _ Hi).
      * pose proof (filter_delete_length is_transform_task t i _ Hi) as H1.
        pose proof (filter_delete_length (λ t, negb (is_transform_task t))
                      t i _ Hi) as H2. cbn in H1, H2.
        rewrite ?length_app; cbn; lia.
    + pose proof (filter_delete_length is_transform_task t i _ Hi) as H1.
      pose proof (filter_delete_length (λ t, negb (is_transform_task t))
                    t i _ Hi) as H2. cbn in H1, H2.
      destruct (h0 !! _writingFinished) as [[|x|e]|]; cbn; try done;
        rewrite ?length_app; cbn; lia.
Qed.

Lemma transforms_cons ev evs :
  transforms (ev :: evs) = transforms [ev] + transforms evs.
Proof. by destruct ev. Qed.

Lemma flushes_cons (ev : Event In) evs :
  flushes (ev :: evs) = flushes [ev] + flushes evs.
Proof. by destruct ev. Qed.

Lemma accounted_run evs n m st :
  accounted n m st →
  accounted (n + transforms evs) (m + flushes evs) (run evs st).
Proof.
  revert n m st. induction evs as [|ev evs IH]; intros n m st Hacc.
  - cbn. by rewrite !Nat.add_0_r.
  - rewrite transforms_cons, flushes_cons, !Nat.add_assoc. cbn [run].
    by apply IH, accounted_step.
Qed.

(** X15.  No callback is called twice and none is lost: at every moment
    the callbacks of [_transform] that have been called and those still
    pending number the calls of [_transform], and likewise for
    [_flush]. *)
Theorem callbacks_accounted evs :
  let st := run evs (new_stream (T := T)) in
  length (transform_callbacks st) + pending_transforms (tasks st)
  = transforms evs ∧
  length (flush_callbacks st) + pending_flushes (tasks st) = flushes evs.
Proof. apply (accounted_run evs 0 0 new_stream). by split. Qed.

End AdapterInvariants.

Section IdentityAnySchedule.
Import Streams Adapter.
Context {V : Type}.

Implicit Types (evs : list (Event V)).

Lemma offered_closed evs : offered true evs = replicate (flushes evs) IterDone.
Proof. induction evs as [|[v| | |i] evs IH]; cbn; by rewrite ?IH. Qed.

Lemma offered_accepted evs :
  offered false evs
  = (IterValue <$> accepted evs) ++ replicate (flushes evs) IterDone.
Proof.
  induction evs as [|[v| | |i] evs IH]; cbn; rewrite ?IH; try done.
  by rewrite offered_closed.
Qed.

Lemma values_prefix_of_sent (a b : list V) (x : list (IteratorResult V)) k :
  (IterValue <$> a) ++ x = (IterValue <$> b) ++ replicate k IterDone →
  a `prefix_of` b.
Proof.
  revert b. induction a as [|v a IH]; intros b; cbn; [intros; apply prefix_nil|].
  destruct b as [|v' b]; cbn.
  - by destruct k.
  - intros [= <- Heq]. by apply prefix_cons, IH.
Qed.

(** X14.  Under any schedule, with the identity transform, what has been
    pulled and what has been pushed are prefixes of the items written
    before the first [_flush], in their order: nothing is reordered,
    duplicated or made up, and an item written after [_flush] never comes
    out. *)
Theorem identity_output_is_accepted_input evs :
  let st := run evs (new_stream (T := identity V)) in
  pushed st `prefix_of` pulled st ∧ pulled st `prefix_of` accepted evs.
Proof.
  cbn zeta.
  destruct (flow_run evs [] _ consistent_new flow_new) as [Hsent Hheld _].
  cbn in Hsent. rewrite offered_accepted in Hsent. unfold consumed in Hsent.
  rewrite <- app_assoc in Hsent. split.
  - rewrite Hheld. by apply prefix_app_r.
  - by eapply values_prefix_of_sent.
Qed.

End IdentityAnySchedule.

Section AdapterExamples.
Import Streams Adapter.

Lemma blocked_only_on_empty_backlog_witness :
  let st := run ([Transform 1] ++ replicate 4 Advance)
              (new_stream (T := identity nat)) in
  blockedOn (_inputs st) = Some 4 ∧ backlog (_inputs st) = [].
Proof.
  split; [by vm_compute|].
  apply (blocked_only_on_empty_backlog (T := identity nat)
           ([Transform 1] ++ replicate 4 Advance) 4).
  by vm_compute.
Defined.

(** The transform throws on the first item; ['error'] is emitted by the
    next step of its activity, and [_flush] never completes. *)
Lemma transform_error_surfaces_witness :
  let st := run [Transform 1; Advance; Advance] (new_stream (T := failing nat)) in
  let st' := run [Flush; Advance; Settle 1; Advance] st in
  driver st = Threw "unreadable" ∧
  errors st' = ["unreadable"] ∧ flush_callbacks st' = [].
Proof.
  split; [by vm_compute|].
  destruct (transform_error_surfaces (T := failing nat)
              [Transform 1; Advance; Advance]
              [Flush; Advance; Settle 1; Advance] "unreadable")
    as (_ & _ & Hemitted & _ & Hflush); [by vm_compute|].
  split; [|exact Hflush]. apply Hemitted. cbn. lia.
Defined.

Lemma done_only_after_close_witness :
  let st := run Scenario.two_items (new_stream (T := identity nat)) in
  inputs_returned st = true ∧ _closed (_inputs st) = true.
Proof.
  split; [by vm_compute|].
  apply (done_only_after_close (T := identity nat) Scenario.two_items).
  by vm_compute.
Defined.

End AdapterExamples.

(** *** More about the build *)

Section BuildExtras.
Import Build.

(** X18.  The service worker of a phase is generated exactly when the
    configuration is loaded and the stream of that phase has ended, in the
    turn the later of the two happens and with the loaded configuration,
    whatever becomes of the other phase. *)
Theorem worker_generated_per_phase E options config r t o :
  build E options config = inr r →
  CallAddServiceWorker t o ∈ external_calls r ↔
  ∃ t0 cfg t1 v, loadSWConfig r = Some (t0, Resolves cfg) ∧ t = t0 `max` t1 ∧
    ((waitFor (emission E (unbundledPhase r)) = Some (t1, Resolves v) ∧
      o = worker_options config "build/unbundled" false cfg) ∨
     (waitFor (emission E (bundledPhase r)) = Some (t1, Resolves v) ∧
      o = worker_options config "build/bundled" true cfg)).
Proof.
  intros (js & compile & _ & _ & _ & _ & _ & _ & _ & _ & ->)%build_inr.
  rewrite elem_of_cons, elem_of_app, !postProcessing_calls_iff. split.
  - intros [[=]|[(t0 & cfg & t1 & v & ? & ? & ? & ?)
               |(t0 & cfg & t1 & v & ? & ? & ? & ?)]];
      exists t0, cfg, t1, v; (split; [done|]); (split; [done|]);
      [by left|by right].
  - intros (t0 & cfg & t1 & v & ? & ? & [[? ?]|[? ?]]); right;
      [left|right]; by exists t0, cfg, t1, v.
Qed.

(** The bundled phase fails at once; the unbundled one still gets its
    service worker, in turn 3. *)
Lemma worker_generated_per_phase_witness :
  ∃ r, build FurtherScenarios.bundling_fails Scenario.plain_options Scenario.config
       = inr r ∧
    CallAddServiceWorker 3
      (worker_options Scenario.config "build/unbundled" false VUndefined)
      ∈ external_calls r.
Proof.
  eexists. split; [reflexivity|].
  apply (worker_generated_per_phase FurtherScenarios.bundling_fails
           Scenario.plain_options Scenario.config _ _ _ eq_refl).
  exists 1, VUndefined, 3, VUndefined. split; [reflexivity|].
  split; [reflexivity|]. left. split; reflexivity.
Defined.

(** X19.  When nothing fails, each post-processing promise is fulfilled
    with the result of its service worker, once the configuration, the
    stream of its phase and then the service worker are done, and the
    build completes with [undefined] in the turn the later one is. *)
Theorem build_completes_with_last_worker
    E options config r t0 cfg tu vu tb vb du wu db wb :
  build E options config = inr r →
  loadSWConfig r = Some (t0, Resolves cfg) →
  waitFor (emission E (unbundledPhase r)) = Some (tu, Resolves vu) →
  waitFor (emission E (bundledPhase r)) = Some (tb, Resolves vb) →
  addServiceWorker E (worker_options config "build/unbundled" false cfg)
  = Some (du, Resolves wu) →
  addServiceWorker E (worker_options config "build/bundled" true cfg)
  = Some (db, Resolves wb) →
  unbundledPostProcessing r = Some (t0 `max` tu + du, Resolves wu) ∧
  bundledPostProcessing r = Some (t0 `max` tb + db, Resolves wb) ∧
  completion r
  = Some ((t0 `max` tu + du) `max` (t0 `max` tb + db), Resolves VUndefined).
Proof.
  intros (js & compile & _ & _ & _ & _ & _ & HU & HB & HC & _)%build_inr
    Hload Hu Hb Hwu Hwb.
  assert (unbundledPostProcessing r = Some (t0 `max` tu + du, Resolves wu))
    as HU'.
  { rewrite HU, Hload. rewrite postProcessing_fst. rewrite Hu.
    rewrite (Promise_all_pair_eq _ _ _ _ _ _ eq_refl eq_refl).
    cbn. unfold addServiceWorker_at. unfold worker_options in Hwu.
    by rewrite Hwu. }
  assert (bundledPostProcessing r = Some (t0 `max` tb + db, Resolves wb))
    as HB'.
  { rewrite HB, Hload. rewrite postProcessing_fst. rewrite Hb.
    rewrite (Promise_all_pair_eq _ _ _ _ _ _ eq_refl eq_refl).
    cbn. unfold addServiceWorker_at. unfold worker_options in Hwb.
    by rewrite Hwb. }
  do 2 (split; [done|]). rewrite HC, HU', HB'.
  by rewrite (Promise_all_pair_eq _ _ _ _ _ _ eq_refl eq_refl).
Qed.

Lemma build_completes_with_last_worker_witness :
  ∃ r, build Scenario.smooth Scenario.plain_options Scenario.config = inr r ∧
    completion r = Some (4, Resolves VUndefined).
Proof.
  eexists. split; [reflexivity|].
  refine (proj2 (proj2 (build_completes_with_last_worker Scenario.smooth
    Scenario.plain_options Scenario.config _ 1 VUndefined 3 VUndefined
    3 VUndefined 1 VUndefined 1 VUndefined eq_refl _ _ _ _ _)));
    reflexivity.
Defined.

Lemma earliest_le rs t e :
  (t, e) ∈ rs → ∃ t' e', earliest rs = Some (t', e') ∧ t' ≤ t.
Proof.
  intros Hin. destruct (earliest rs) as [[t' e']|] eqn:He.
  - exists t', e'. split; [done|].
    apply earliest_Some in He as [_ Hmin]. by apply (Hmin t e).
  - apply earliest_None in He as ->. by apply elem_of_nil in Hin.
Qed.

(** [Promise.all] is rejected no later than any of its inputs is. *)
Lemma Promise_all_rejected_by (ps : list Promise) t e :
  Some (t, Rejects e) ∈ ps →
  ∃ t' e', Promise_all ps = Some (t', Rejects e') ∧ t' ≤ t.
Proof.
  intros Hin%elem_of_rejections%earliest_le.
  destruct Hin as (t' & e' & He & Hle). exists t', e'. split; [|done].
  by apply Promise_all_rejects.
Qed.

Lemma postProcessing_rejected_by E load phase folder config is_bundled t e :
  Some (t, Rejects e) ∈ [load; waitFor (emission E phase)] →
  ∃ t' e', (postProcessing E load phase folder config is_bundled).1
           = Some (t', Rejects e') ∧ t' ≤ t.
Proof.
  intros (t' & e' & Hall & Hle)%Promise_all_rejected_by.
  exists t', e'. split; [|done].
  rewrite postProcessing_fst. by rewrite Hall.
Qed.

(** X20.  The build fails fast: once the loading of the service worker
    configuration has failed, or the last stream of a phase, the one
    [waitFor] is given, has emitted ['error'] before any ['end'], the
    build is rejected, in that turn at the latest. *)
Theorem build_rejected_by_first_failure E options config r t e :
  build E options config = inr r →
  loadSWConfig r = Some (t, Rejects e) ∨
  fails_at (emission E (unbundledPhase r)) t e ∨
  fails_at (emission E (bundledPhase r)) t e →
  ∃ t' e', completion r = Some (t', Rejects e') ∧ t' ≤ t.
Proof.
  intros (js & compile & _ & _ & _ & _ & _ & HU & HB & HC & _)%build_inr Hin.
  assert (∃ t1 e1, Some (t1, Rejects e1)
            ∈ [unbundledPostProcessing r; bundledPostProcessing r] ∧ t1 ≤ t)
    as (t1 & e1 & Hin1 & Hle1).
  { rewrite HU, HB.
    destruct Hin as [Hl|[Hu%waitFor_rejects|Hb%waitFor_rejects]].
    - destruct (postProcessing_rejected_by E (loadSWConfig r)
                  (unbundledPhase r) "build/unbundled" config false t e)
        as (t1 & e1 & Heq & Hle); [rewrite <-Hl; set_solver|].
      exists t1, e1. rewrite Heq. split; [set_solver|done].
    - destruct (postProcessing_rejected_by E (loadSWConfig r)
                  (unbundledPhase r) "build/unbundled" config false t e)
        as (t1 & e1 & Heq & Hle); [rewrite <-Hu; set_solver|].
      exists t1, e1. rewrite Heq. split; [set_solver|done].
    - destruct (postProcessing_rejected_by E (loadSWConfig r)
                  (bundledPhase r) "build/bundled" config true t e)
        as (t1 & e1 & Heq & Hle); [rewrite <-Hb; set_solver|].
      exists t1, e1. rewrite Heq. split; [set_solver|done]. }
  apply Promise_all_rejected_by in Hin1 as (t' & e' & Hall & Hle).
  exists t', e'. rewrite HC, Hall. split; [done|lia].
Qed.

(** The write of the unbundled phase fails in turn 5, the one of the
    bundled phase in turn 2: the build is rejected by turn 5. *)
Lemma build_rejected_by_first_failure_witness :
  ∃ r, build Scenario.both_fail Scenario.plain_options Scenario.config = inr r ∧
    ∃ t e, completion r = Some (t, Rejects e) ∧ t ≤ 5.
Proof.
  eexists. split; [reflexivity|].
  apply (build_rejected_by_first_failure Scenario.both_fail
           Scenario.plain_options Scenario.config _ 5 (Failure "unbundled")
           eq_refl).
  right; left. exists [(1, data)], []. split; [reflexivity|].
  by repeat constructor.
Defined.

(** X21.  What the command does.  Called without options, [run] throws.
    With a truthy [options.env.build] it hands the build over to that
    function, with the options it has put together, and does not call
    [build]; when that is no function the call throws.  Otherwise it
    calls [build], which then does not throw; the files are not compiled
    by Babel; the optimizers get the defaults, the HTML one also
    [collapseWhitespace] when the flag [--html.collapseWhitespace] is
    given; the service worker configuration is read from the path given
    with [--sw-precache-config], or from [sw-precache-config.js],
    resolved against the root of the project. *)
Theorem command_pipelines E options config :
  let env_build := prop (prop options "env") "build" in
  let delegates :=
    truthy (prop options "env") && truthy env_build in
  (options = VUndefined →
   BuildCommand.run E options config
   = BuildCommand.Throws
       (TypeError "Cannot read property 'add-service-worker' of undefined")) ∧
  (options ≠ VUndefined →
   ∃ buildOptions,
     BuildCommand.buildOptions_of options = inr buildOptions ∧
     prop buildOptions "insertPrefetchLinks"
     = prop options "insert-prefetch-links" ∧
     (delegates = true → (∃ name, env_build = VFunction name) →
      BuildCommand.run E options config
      = BuildCommand.ViaEnvironment env_build buildOptions) ∧
     (delegates = true → (∀ name, env_build ≠ VFunction name) →
      ∃ e, BuildCommand.run E options config = BuildCommand.Throws e) ∧
     (delegates = false →
      ∃ r, BuildCommand.run E options config
           = BuildCommand.ViaBuild buildOptions (inr r) ∧
        build E buildOptions config = inr r ∧
        sourcesStream r
        = [sources; splitHtml;
           gulpif_match "\.js$"
             (JSOptimizeStream (VObject {["minify" := VBool true]}));
           gulpif_match "\.css$"
             (CSSOptimizeStream (VObject {["stripWhitespace" := VBool true]}));
           gulpif_match "\.html$"
             (HTMLOptimizeStream
                (VObject
                   (if truthy (prop options "html.collapseWhitespace")
                    then <["collapseWhitespace" := VBool true]>
                           {["removeComments" := VBool true]}
                    else {["removeComments" := VBool true]})));
           rejoinHtml] ∧
        depsStream r = dependencies :: tail (sourcesStream r) ∧
        swPrecacheConfig r
        = path_resolve E (root config)
            (or_else (prop options "sw-precache-config")
               (VString "sw-precache-config.js")))).
Proof.
  cbn zeta. split; [by intros ->|]. intros Hdefined.
  assert (∃ first, get options "add-service-worker" = inr first ∧
                   first = prop options "add-service-worker")
    as (first & Hfirst & ->)
    by (destruct options; [by destruct Hdefined|by eexists..]).
  unfold BuildCommand.run, BuildCommand.buildOptions_of. rewrite Hfirst.
  eexists. split; [done|]. split; [done|].
  destruct (truthy (prop options "env")
            && truthy (prop (prop options "env") "build")).
  - split; [|split; [|done]].
    + by intros _ [name ->].
    + intros _ Hno. unfold BuildCommand.call_env_build.
      destruct (prop (prop options "env") "build") as [| | | | |name];
        try (by eexists). by destruct (Hno name).
  - split; [done|]. split; [done|]. intros _.
    eexists. split; [done|]. split; [done|]. split; [|done].
    by destruct (truthy (prop options "html.collapseWhitespace")).
Qed.

(** The environment brings a [build] of its own: the command hands the
    build over to it. *)
Lemma command_pipelines_witness :
  ∃ buildOptions,
    BuildCommand.run Scenario.smooth FurtherScenarios.own_build Scenario.config
    = BuildCommand.ViaEnvironment (VFunction "build") buildOptions.
Proof.
  destruct (proj2 (command_pipelines Scenario.smooth
                     FurtherScenarios.own_build Scenario.config))
    as (buildOptions & _ & _ & Hdelegates & _); [done|].
  exists buildOptions. apply Hdelegates; [reflexivity|]. by exists "build".
Defined.

End BuildExtras.
